(** * Py2C tree visitors: [py2c/tree/visitors.py]

    A shallow embedding of [BaseTreeVisitor], [RecursiveTreeVisitor] and
    [RecursiveTreeTransformer] over a small model of the Python object
    store, and the properties of the traversal engine proved about it.

    Python objects have identity and are mutated in place, so nodes and
    lists live in a heap and are referred to by location; [visit] is the
    recursive knot of the three classes and is defined by recursion on a
    fuel argument (Python's recursion depth). *)

From Stdlib Require Import ZArith.
From stdpp Require Import base option list strings gmap fin_maps relations.

Local Open Scope string_scope.
Local Open Scope list_scope.

(** ** Values and objects *)

Definition loc := nat.

(** The Python values the visitors can tell apart. [VNone] is [None],
    [VSentinel] is the object [BaseTreeVisitor.NONE_SENTINEL]; integers are
    leaves that cannot be iterated, strings and tuples are leaves that can;
    [VRef] is a reference to a heap object (an instance or a list). *)
#[warnings="-register-all"]
Inductive val : Type :=
| VNone
| VSentinel
| VInt (z : Z)
| VStr (s : string)
| VTuple (items : list val)
| VRef (l : loc).

(** A class object: its identity, [__name__], [__module__], the identities
    of its proper ancestors and the field names its instances declare
    ([_fields]). *)
Record pyclass := PyClass {
  cls_id : nat;
  cls_name : string;
  cls_module : string;
  cls_bases : list nat;
  cls_fields : list string
}.

Inductive obj : Type :=
| Instance (cls : pyclass) (attrs : gmap string val)
| PyList (items : list val).

(** The store, and the sequence of arguments [visit] has been called with
    (instrumentation: the program never reads it). *)
Record state := State {
  heap : gmap loc obj;
  visited : list val
}.

(** ** Computations *)

Inductive exn := NotImplementedError | AttributeError | TypeError | DanglingReference.

Inductive outcome (A : Type) : Type :=
| Ok (a : A) (σ : state)
| Raise (e : exn)
| OutOfFuel.
Arguments Ok {A} a σ.
Arguments Raise {A} e.
Arguments OutOfFuel {A}.

Definition M (A : Type) : Type := state → outcome A.

Definition ret {A} (a : A) : M A := λ σ, Ok a σ.

Definition bind {A B} (m : M A) (f : A → M B) : M B :=
  λ σ, match m σ with
       | Ok a σ' => f a σ'
       | Raise e => Raise e
       | OutOfFuel => OutOfFuel
       end.

Definition raise {A} (e : exn) : M A := λ _, Raise e.
Definition out_of_fuel {A} : M A := λ _, OutOfFuel.

#[global] Instance M_ret : MRet M := @ret.
#[global] Instance M_bind : MBind M := λ A B f m, bind m f.

(** ** The built-in operations the visitors use *)

Definition object_class : pyclass := PyClass 0 "object" "builtins" [] [].

Definition builtin (id : nat) (name : string) : pyclass :=
  PyClass id name "builtins" [0] [].

Definition NoneType_class : pyclass := builtin 1 "NoneType".
Definition int_class : pyclass := builtin 2 "int".
Definition str_class : pyclass := builtin 3 "str".
Definition tuple_class : pyclass := builtin 4 "tuple".
Definition list_class : pyclass := builtin 5 "list".

(** [value.__class__] *)
Definition class_of (h : gmap loc obj) (v : val) : option pyclass :=
  match v with
  | VNone => Some NoneType_class
  | VSentinel => Some object_class
  | VInt _ => Some int_class
  | VStr _ => Some str_class
  | VTuple _ => Some tuple_class
  | VRef l =>
      match h !! l with
      | Some (Instance c _) => Some c
      | Some (PyList _) => Some list_class
      | None => None
      end
  end.

Definition get_class (v : val) : M pyclass :=
  λ σ, match class_of (heap σ) v with
       | Some c => Ok c σ
       | None => Raise DanglingReference
       end.

(** [isinstance(value, root_class)], the class given by its identity. *)
Definition is_instance (h : gmap loc obj) (v : val) (root_class : nat) : bool :=
  match class_of h v with
  | Some c => bool_decide (root_class ∈ cls_id c :: cls_bases c)
  | None => false
  end.

Definition isinstance (v : val) (root_class : nat) : M bool :=
  λ σ, Ok (is_instance (heap σ) v root_class) σ.

(** [isinstance(value, list)] *)
Definition list_items (h : gmap loc obj) (v : val) : option (list val) :=
  match v with
  | VRef l => match h !! l with Some (PyList items) => Some items | _ => None end
  | _ => None
  end.

Definition isinstance_list (v : val) : M bool :=
  λ σ, Ok (bool_decide (is_Some (list_items (heap σ) v))) σ.

(** The elements [value] yields when iterated, [None] when it is not an
    instance of [collections.Iterable]. Strings yield their characters,
    tuples and lists their elements; instances of user classes are
    modelled without [__iter__]. *)
Definition chars (s : string) : list val :=
  (λ c, VStr (String c EmptyString)) <$> String.list_ascii_of_string s.

Definition elements (h : gmap loc obj) (v : val) : option (list val) :=
  match v with
  | VStr s => Some (chars s)
  | VTuple items => Some items
  | VRef _ => list_items h v
  | _ => None
  end.

Definition iterate (v : val) : M (option (list val)) :=
  λ σ, Ok (elements (heap σ) v) σ.

(** [getattr(node, field)]: [None] stands for [AttributeError]. *)
Definition attr (h : gmap loc obj) (node : val) (field : string) : option val :=
  match node with
  | VRef l => match h !! l with Some (Instance _ attrs) => attrs !! field | _ => None end
  | _ => None
  end.

(** [getattr(node, field, default)] *)
Definition getattr (node : val) (field : string) (default : val) : M val :=
  λ σ, Ok (from_option id default (attr (heap σ) node field)) σ.

Definition set_heap (h : gmap loc obj) (σ : state) : state :=
  State h (visited σ).

(** [setattr(node, field, v)] *)
Definition setattr (node : val) (field : string) (v : val) : M unit :=
  λ σ, match node with
       | VRef l =>
           match heap σ !! l with
           | Some (Instance c attrs) =>
               Ok tt (set_heap (<[l := Instance c (<[field := v]> attrs)]> (heap σ)) σ)
           | _ => Raise AttributeError
           end
       | _ => Raise AttributeError
       end.

(** [delattr(node, field)]: deleting an attribute that is not there raises. *)
Definition delattr (node : val) (field : string) : M unit :=
  λ σ, match node with
       | VRef l =>
           match heap σ !! l with
           | Some (Instance c attrs) =>
               match attrs !! field with
               | Some _ => Ok tt (set_heap (<[l := Instance c (delete field attrs)]> (heap σ)) σ)
               | None => Raise AttributeError
               end
           | _ => Raise AttributeError
           end
       | _ => Raise AttributeError
       end.

(** [original_list[:] = new_list]: the list object keeps its identity and
    gets new contents. *)
Definition set_slice (original_list : val) (new_list : list val) : M unit :=
  λ σ, match original_list with
       | VRef l =>
           match heap σ !! l with
           | Some (PyList _) => Ok tt (set_heap (<[l := PyList new_list]> (heap σ)) σ)
           | _ => Raise TypeError
           end
       | _ => Raise TypeError
       end.

(** [original_list[i]] as the list iterator reads it: [None] past the end. *)
Definition list_item (original_list : val) (i : nat) : M (option val) :=
  λ σ, match list_items (heap σ) original_list with
       | Some items => Ok (items !! i) σ
       | None => Raise TypeError
       end.

Definition list_len (original_list : val) : M nat :=
  λ σ, match list_items (heap σ) original_list with
       | Some items => Ok (length items) σ
       | None => Raise TypeError
       end.

(** Instrumentation of [visit]. *)
Definition record_visit (node : val) : M unit :=
  λ σ, Ok tt (State (heap σ) (visited σ ++ [node])).

(** Modelled from the spec: [py2c.tree.iter_fields], the Node Field
    Protocol, is imported by visitors.py and not defined there. For a node
    it reports the fields the node's type declares, in the declared order,
    each with its current value; a field that is absent is not reported,
    and a value that does not follow the protocol is an error. As in
    [ast.iter_fields], which the visitors are written to be compatible
    with, it is a generator: [declared_fields] is what it walks over, and
    [iter_fields_next] is what it yields when it reaches [field]. *)
Definition declared_fields (node : val) : M (list string) :=
  λ σ, match node with
       | VRef l =>
           match heap σ !! l with
           | Some (Instance c _) => Ok (cls_fields c) σ
           | Some (PyList _) => Raise AttributeError
           | None => Raise DanglingReference
           end
       | _ => Raise AttributeError
       end.

(** Modelled from the spec: what the generator of [iter_fields] yields
    when it reaches the declared field [field]: the name with the current
    value, or nothing when the node does not have the field. *)
Definition iter_fields_next (node : val) (field : string) : M (option (string * val)) :=
  λ σ, Ok (pair field <$> attr (heap σ) node field) σ.

(** Modelled from the spec: the whole enumeration of [iter_fields] at
    once, in a store that does not change meanwhile. *)
Definition iter_fields (h : gmap loc obj) (node : val) : option (list (string * val)) :=
  match node with
  | VRef l =>
      match h !! l with
      | Some (Instance c attrs) =>
          Some (omap (λ f, pair f <$> attrs !! f) (cls_fields c))
      | _ => None
      end
  | _ => None
  end.

(** ** Visitor instances *)

(** What a method of the visitor can reach through [self]. *)
Record hooks := Hooks {
  self_visit : val → M val;
  self_children_visit : val → M val
}.

(** A visitor method [visit_<ClassName>(self, node)], or [generic_visit]. *)
Definition handler : Type := hooks → val → M val.

(** The class of a visitor instance: one of the two traversals of the
    module, or a direct subclass of the abstract [BaseTreeVisitor] that
    supplies [generic_visit] and inherits [children_visit]. *)
Inductive visitor_class : Type :=
| DirectSubclass (generic_visit : handler)
| IsRecursiveTreeVisitor
| IsRecursiveTreeTransformer.

(** A visitor instance: its class, the identity of [root_class] and the
    attributes named [visit_...] that its class defines. *)
Record visitor := Visitor {
  vclass : visitor_class;
  root_class : nat;
  methods : gmap string handler
}.

(** ** [class BaseTreeVisitor] *)

Module BaseTreeVisitor.

(** [getattr(self, method, default)] on the visitor instance. *)
Definition getattr_self (self : visitor) (this : hooks) (method : string)
    (default : val → M val) : val → M val :=
  match methods self !! method with
  | Some m => m this
  | None => default
  end.

(** [visit]: [generic_visit] is the instance's own, late-bound, and so
    is whatever the resolved method calls through [self] ([this]). *)
Definition visit (self : visitor) (this : hooks)
    (generic_visit : val → M val) (node : val) : M val :=
  record_visit node;;
  cls ← get_class node;
  let method := "visit_" +:+ cls_name cls in
  let visitor := getattr_self self this method generic_visit in
  visitor node.

Definition children_visit (node : val) : M val :=
  raise NotImplementedError.

End BaseTreeVisitor.

(** ** [class RecursiveTreeVisitor(BaseTreeVisitor)]

    A [for value in original_list] loop reads the list object as it is at
    each step, so a loop over a list that keeps growing does not end:
    [steps] bounds the number of steps taken, and [_visit_list] allows one
    step for each element present at the start, one to find the end, and
    [fuel] more. *)

Module RecursiveTreeVisitor.
Section Methods.
Variable self : visitor.
Variable fuel : nat.
Variable visit : val → M val.   (* self.visit *)

Fixpoint _visit_list_from (steps : nat) (original_list : val) (i : nat) : M val :=
  match steps with
  | 0 => out_of_fuel
  | S steps =>
      next ← list_item original_list i;
      match next with
      | None => mret VNone
      | Some value =>
          is_node ← isinstance value (root_class self);
          (if is_node : bool then _ ← visit value; mret tt else mret tt);;
          _visit_list_from steps original_list (S i)
      end
  end.

Definition _visit_list (original_list : val) : M val :=
  n ← list_len original_list;
  _visit_list_from (S n + fuel) original_list 0.

(** The body of the loop of [children_visit], for the field the
    generator of [iter_fields] has reached. *)
Definition children_visit_field (node : val) (field : string) : M unit :=
  item ← iter_fields_next node field;
  match item with
  | None => mret tt
  | Some (field, _) =>
      value ← getattr node field VNone;
      is_list ← isinstance_list value;
      if is_list : bool then _ ← _visit_list value; mret tt
      else
        is_node ← isinstance value (root_class self);
        if is_node : bool then _ ← visit value; mret tt
        else mret tt
  end.

Fixpoint children_visit_fields (node : val) (fields : list string) : M unit :=
  match fields with
  | [] => mret tt
  | field :: fields =>
      children_visit_field node field;;
      children_visit_fields node fields
  end.

Definition children_visit (node : val) : M val :=
  fields ← declared_fields node;
  children_visit_fields node fields;;
  mret VNone.

Definition generic_visit (node : val) : M val :=
  _ ← children_visit node;
  mret VNone.

End Methods.
End RecursiveTreeVisitor.

(** ** [class RecursiveTreeTransformer(BaseTreeVisitor)] *)

Module RecursiveTreeTransformer.
Section Methods.
Variable self : visitor.
Variable fuel : nat.
Variable visit : val → M val.   (* self.visit *)

(** One turn of the loop of [_visit_list]: [value] is the element read,
    the result is [new_list] after the turn. *)
Definition _visit_list_body (value : val) (new_list : list val)
    : M (list val) :=
  is_node ← isinstance value (root_class self);
  if is_node : bool then
    value ← visit value;
    match value with
    | VNone => mret new_list                       (* continue *)
    | VSentinel => mret (new_list ++ [VNone])      (* value = None; append *)
    | _ =>
        iterable ← iterate value;
        match iterable with
        | Some items => mret (new_list ++ items)   (* extend; continue *)
        | None => mret (new_list ++ [value])
        end
    end
  else mret (new_list ++ [value]).

Fixpoint _visit_list_from (steps : nat) (original_list : val) (i : nat)
    (new_list : list val) : M (list val) :=
  match steps with
  | 0 => out_of_fuel
  | S steps =>
      next ← list_item original_list i;
      match next with
      | None => mret new_list
      | Some value =>
          new_list ← _visit_list_body value new_list;
          _visit_list_from steps original_list (S i) new_list
      end
  end.

Definition _visit_list (original_list : val) : M val :=
  n ← list_len original_list;
  new_list ← _visit_list_from (S n + fuel) original_list 0 [];
  set_slice original_list new_list;;
  mret VNone.

(** The body of the loop of [children_visit], for the field the
    generator of [iter_fields] has reached. The [setattr] follows the
    [if] and is not one of its branches. *)
Definition children_visit_field (node : val) (field : string) : M unit :=
  item ← iter_fields_next node field;
  match item with
  | None => mret tt
  | Some (field, old_value) =>
      is_list ← isinstance_list old_value;
      if is_list : bool then _ ← _visit_list old_value; mret tt
      else
        is_node ← isinstance old_value (root_class self);
        if is_node : bool then
          new_node ← visit old_value;
          new_node ← match new_node with
                     | VNone => delattr node field;; mret new_node
                     | VSentinel => mret VNone
                     | _ => mret new_node
                     end;
          setattr node field new_node
        else mret tt
  end.

Fixpoint children_visit_fields (node : val) (fields : list string) : M unit :=
  match fields with
  | [] => mret tt
  | field :: fields =>
      children_visit_field node field;;
      children_visit_fields node fields
  end.

Definition children_visit (node : val) : M val :=
  fields ← declared_fields node;
  children_visit_fields node fields;;
  mret VNone.

Definition generic_visit (node : val) : M val :=
  _ ← children_visit node;
  mret VNone.

End Methods.
End RecursiveTreeTransformer.

(** ** Method resolution and the recursive knot *)

Definition children_visit_of (self : visitor) (fuel : nat) (visit : val → M val)
    : val → M val :=
  match vclass self with
  | DirectSubclass _ => BaseTreeVisitor.children_visit
  | IsRecursiveTreeVisitor => RecursiveTreeVisitor.children_visit self fuel visit
  | IsRecursiveTreeTransformer => RecursiveTreeTransformer.children_visit self fuel visit
  end.

Definition bound_methods (self : visitor) (fuel : nat) (visit : val → M val) : hooks :=
  Hooks visit (children_visit_of self fuel visit).

Definition generic_visit_of (self : visitor) (fuel : nat) (visit : val → M val)
    : val → M val :=
  match vclass self with
  | DirectSubclass generic_visit => generic_visit (bound_methods self fuel visit)
  | IsRecursiveTreeVisitor => RecursiveTreeVisitor.generic_visit self fuel visit
  | IsRecursiveTreeTransformer => RecursiveTreeTransformer.generic_visit self fuel visit
  end.

(** [self.visit(node)], to recursion depth [fuel]. *)
Fixpoint visit (fuel : nat) (self : visitor) (node : val) : M val :=
  match fuel with
  | 0 => out_of_fuel
  | S fuel =>
      BaseTreeVisitor.visit self
        (bound_methods self fuel (visit fuel self))
        (generic_visit_of self fuel (visit fuel self)) node
  end.

(** [self.children_visit(node)] and [self.generic_visit(node)] called from
    outside, with [fuel] for the visits below. *)
Definition children_visit (fuel : nat) (self : visitor) : val → M val :=
  children_visit_of self fuel (visit fuel self).

Definition generic_visit (fuel : nat) (self : visitor) : val → M val :=
  generic_visit_of self fuel (visit fuel self).

(** ** The edit outcomes of the specification *)

(** The four results of visiting a node during a mutating traversal. *)
Inductive edit_outcome : Type :=
| Keep (node : val)
| Delete
| ExplicitNull
| Splice (nodes : list val).

(** The outcome a returned value stands for in a list slot. *)
Definition edit_outcome_of (h : gmap loc obj) (returned : val) : edit_outcome :=
  match returned with
  | VNone => Delete
  | VSentinel => ExplicitNull
  | _ => match elements h returned with
         | Some nodes => Splice nodes
         | None => Keep returned
         end
  end.

(** What an outcome puts into the new sequence. *)
Definition contribution (e : edit_outcome) : list val :=
  match e with
  | Keep node => [node]
  | Delete => []
  | ExplicitNull => [VNone]
  | Splice nodes => nodes
  end.

(** The list rebuild algorithm in the specification's words: the old
    sequence is walked in order; an element that is a node is visited and
    contributes what its outcome says, any other element is copied. *)
Fixpoint rebuild (visit : val → M val) (root_class : nat) (old : list val) : M (list val) :=
  match old with
  | [] => mret []
  | element :: old =>
      is_node ← isinstance element root_class;
      new ← (if is_node : bool then
               returned ← visit element;
               outcome ← (λ σ, Ok (edit_outcome_of (heap σ) returned) σ) : M edit_outcome;
               mret (contribution outcome)
             else mret [element]);
      rest ← rebuild visit root_class old;
      mret (new ++ rest)
  end.

(** [Inv] holds of the states a rebuild of the list at [l] goes through:
    it fixes the contents of that list object, and visiting an element of
    the list keeps it. *)
Definition list_stable (Inv : state → Prop) (l : loc) (items : list val)
    (visit : val → M val) : Prop :=
  (∀ σ, Inv σ → heap σ !! l = Some (PyList items)) ∧
  (∀ v σ r σ', v ∈ items → Inv σ → visit v σ = Ok r σ' → Inv σ').

(** ** Trees in the store *)

(** [v] is a child of [parent]: the value of one of the declared fields of
    [parent] when that is a node, or a node among the elements of the list
    that a declared field holds. *)
Inductive child (h : gmap loc obj) (root_class : nat) (parent v : val) : Prop :=
| child_single l cls attrs field :
    parent = VRef l →
    h !! l = Some (Instance cls attrs) →
    field ∈ cls_fields cls →
    attrs !! field = Some v →
    list_items h v = None →
    is_instance h v root_class = true →
    child h root_class parent v
| child_element l cls attrs field sequence items :
    parent = VRef l →
    h !! l = Some (Instance cls attrs) →
    field ∈ cls_fields cls →
    attrs !! field = Some sequence →
    list_items h sequence = Some items →
    v ∈ items →
    is_instance h v root_class = true →
    child h root_class parent v.

Definition reachable (h : gmap loc obj) (root_class : nat) : val → val → Prop :=
  rtc (child h root_class).

(** The children of a node in the order of the fields and, within a list,
    of its elements. *)
Definition field_children (h : gmap loc obj) (root_class : nat) (v : val) : list val :=
  match list_items h v with
  | Some items => List.filter (λ e, is_instance h e root_class) items
  | None => if is_instance h v root_class then [v] else []
  end.

Definition children (h : gmap loc obj) (root_class : nat) (node : val) : list val :=
  match node with
  | VRef l =>
      match h !! l with
      | Some (Instance cls attrs) =>
          flat_map (λ field, from_option (field_children h root_class) [] (attrs !! field))
            (cls_fields cls)
      | _ => []
      end
  | _ => []
  end.

(** [v] is a node: an instance, in the store, of the root class. *)
Definition is_node_instance (h : gmap loc obj) (root_class : nat) (v : val) : Prop :=
  is_instance h v root_class = true ∧
  ∃ l cls attrs, v = VRef l ∧ h !! l = Some (Instance cls attrs).

(** The shape of a tree: a node and the trees below it. *)
#[warnings="-register-all"]
Inductive tree : Type :=
| Tree (node : val) (kids : list tree).

Definition root (t : tree) : val :=
  match t with Tree node _ => node end.

Fixpoint preorder (t : tree) : list val :=
  match t with
  | Tree node kids => node :: flat_map preorder kids
  end.

Fixpoint height (t : tree) : nat :=
  match t with
  | Tree _ kids => S (list_max (map height kids))
  end.

(** The store holds the tree [t]: each node of [t] is an instance of the
    root class and its children in the store are the roots of its kids. *)
#[warnings="-register-all"]
Inductive shape (h : gmap loc obj) (root_class : nat) : tree → Prop :=
| shape_node l cls attrs kids :
    h !! l = Some (Instance cls attrs) →
    is_instance h (VRef l) root_class = true →
    children h root_class (VRef l) = root <$> kids →
    Forall (shape h root_class) kids →
    shape h root_class (Tree (VRef l) kids).

(** The read-only traversal with no method of its own, to depth [fuel],
    visits the nodes of the tree [k] in preorder and changes nothing else. *)
Definition visits (h : gmap loc obj) (root_class fuel : nat) (k : tree) : Prop :=
  ∀ trace,
    visit fuel (Visitor IsRecursiveTreeVisitor root_class ∅) (root k) (State h trace)
    = Ok VNone (State h (trace ++ preorder k)).

(** ** Observations on results *)

(** The contents of the list object at [l] after a computation. *)
Definition list_after {A} (o : outcome A) (l : loc) : option (list val) :=
  match o with
  | Ok _ σ => list_items (heap σ) (VRef l)
  | _ => None
  end.

(** The field enumeration of [node] after a computation. *)
Definition fields_after {A} (o : outcome A) (node : val) : option (list (string * val)) :=
  match o with
  | Ok _ σ => iter_fields (heap σ) node
  | _ => None
  end.

(** [getattr(node, field)] after a computation; the inner [None] stands
    for [AttributeError]. *)
Definition attr_after {A} (o : outcome A) (node : val) (field : string)
    : option (option val) :=
  match o with
  | Ok _ σ => Some (attr (heap σ) node field)
  | _ => None
  end.

Definition returned {A} (o : outcome A) : option A :=
  match o with
  | Ok a _ => Some a
  | _ => None
  end.

Definition visited_after {A} (o : outcome A) : option (list val) :=
  match o with
  | Ok _ σ => Some (visited σ)
  | _ => None
  end.

(** ** A small world of nodes to run the visitors on *)

Module Demo.

(** The root class of the node system and four node types. *)
Definition Node : pyclass := PyClass 10 "Node" "py2c.tree" [0] [].
Definition BinOp : pyclass := PyClass 11 "BinOp" "demo" [10; 0] ["left"; "right"].
Definition Leaf : pyclass := PyClass 12 "Leaf" "demo" [10; 0] [].
Definition Block : pyclass := PyClass 13 "Block" "demo" [10; 0] ["body"].
Definition Mark : pyclass := PyClass 14 "Mark" "demo" [10; 0] [].

(** [BinOp(left=Leaf(), right=Leaf())] at location 1. *)
Definition binop_heap : gmap loc obj :=
  <[1 := Instance BinOp (<["left" := VRef 2]> (<["right" := VRef 3]> ∅))]>
  (<[2 := Instance Leaf ∅]> (<[3 := Instance Leaf ∅]> ∅)).

(** [Block(body=[a, b, c])] at location 1, the list at location 2, with
    [a] and [c] instances of [Leaf] and [b] of [Mark]; two more leaves
    [x] and [y], and the list [[x, y]] at location 8. *)
Definition a : val := VRef 3.
Definition b : val := VRef 4.
Definition c : val := VRef 5.
Definition x : val := VRef 6.
Definition y : val := VRef 7.

Definition block_heap : gmap loc obj :=
  <[1 := Instance Block (<["body" := VRef 2]> ∅)]>
  (<[2 := PyList [a; b; c]]>
  (<[3 := Instance Leaf ∅]> (<[4 := Instance Mark ∅]> (<[5 := Instance Leaf ∅]>
  (<[6 := Instance Leaf ∅]> (<[7 := Instance Leaf ∅]>
  (<[8 := PyList [x; y]]> ∅))))))).

(** Visitor methods: return the node, [None], the sentinel, or a fixed value. *)
Definition keep : handler := λ _ node, mret node.
Definition give (v : val) : handler := λ _ _, mret v.

(** A transformer with [visit_Leaf] keeping its node and [visit_Mark]
    returning [v]. *)
Definition marking (v : val) : visitor :=
  Visitor IsRecursiveTreeTransformer 10
    (<["visit_Leaf" := keep]> (<["visit_Mark" := give v]> ∅)).

(** A transformer with [visit_Leaf] returning [v] and nothing else. *)
Definition on_leaf (v : val) : visitor :=
  Visitor IsRecursiveTreeTransformer 10 (<["visit_Leaf" := give v]> ∅).

(** The two traversals with no method of their own. *)
Definition plain_transformer : visitor := Visitor IsRecursiveTreeTransformer 10 ∅.
Definition plain_visitor : visitor := Visitor IsRecursiveTreeVisitor 10 ∅.

(** [self._visit_list(original_list)] of a transformer, from outside. *)
Definition run_visit_list (self : visitor) (original_list : val) (h : gmap loc obj)
    : outcome val :=
  RecursiveTreeTransformer._visit_list self 2 (visit 2 self) original_list (State h []).

(** Two classes of the same name, from different modules, with different
    bases and fields, and an instance of each. *)
Definition Name1 : pyclass := PyClass 20 "Name" "pkg.one" [10; 0] ["id"].
Definition Name2 : pyclass := PyClass 21 "Name" "pkg.two" [0] [].

Definition names_heap : gmap loc obj :=
  <[1 := Instance Name1 (<["id" := VStr "n"]> ∅)]> (<[2 := Instance Name2 ∅]> ∅).

(** A direct subclass of [BaseTreeVisitor] whose [generic_visit] calls
    [self.children_visit(node)]. *)
Definition recursing : handler := λ this node, self_children_visit this node.
Definition direct : visitor := Visitor (DirectSubclass recursing) 10 ∅.

(** A method that edits the children of its node and keeps the node, and
    a transformer that uses it for [Block]. *)
Definition recurse_and_keep : handler :=
  λ this node, _ ← self_children_visit this node; mret node.

Definition editing : visitor :=
  Visitor IsRecursiveTreeTransformer 10
    (<["visit_Block" := recurse_and_keep]>
     (<["visit_Leaf" := keep]> (<["visit_Mark" := give VNone]> ∅))).

(** [Block(body=[BinOp(left=Leaf(), right=Leaf()), 7, Leaf()])]: the block at
    location 1, its list at 2, the [BinOp] at 3 with leaves at 5 and 6, the
    last leaf at 4. *)
Definition nested_heap : gmap loc obj :=
  <[1 := Instance Block (<["body" := VRef 2]> ∅)]>
  (<[2 := PyList [VRef 3; VInt 7; VRef 4]]>
  (<[3 := Instance BinOp (<["left" := VRef 5]> (<["right" := VRef 6]> ∅))]>
  (<[4 := Instance Leaf ∅]> (<[5 := Instance Leaf ∅]> (<[6 := Instance Leaf ∅]> ∅))))).

Definition nested_tree : tree :=
  Tree (VRef 1) [Tree (VRef 3) [Tree (VRef 5) []; Tree (VRef 6) []]; Tree (VRef 4) []].

(** A node that is its own child: [n = Loop(); n.next = n]. *)
Definition Loop : pyclass := PyClass 15 "Loop" "demo" [10; 0] ["next"].

Definition cyclic_heap : gmap loc obj :=
  <[1 := Instance Loop (<["next" := VRef 1]> ∅)]> ∅.

(** One leaf held by both fields: [leaf = Leaf(); BinOp(left=leaf, right=leaf)]. *)
Definition shared_heap : gmap loc obj :=
  <[1 := Instance BinOp (<["left" := VRef 2]> (<["right" := VRef 2]> ∅))]>
  (<[2 := Instance Leaf ∅]> ∅).

Definition shared_tree : tree :=
  Tree (VRef 1) [Tree (VRef 2) []; Tree (VRef 2) []].

(** A method that removes the field [left] of the node at location 1 and
    returns [None]. *)
Definition detach : handler := λ _ _, delattr (VRef 1) "left";; mret VNone.

(** A transformer whose methods all edit the children and keep the node. *)
Definition keeping : visitor :=
  Visitor IsRecursiveTreeTransformer 10
    (<["visit_Block" := recurse_and_keep]>
     (<["visit_BinOp" := recurse_and_keep]> (<["visit_Leaf" := recurse_and_keep]> ∅))).

(** A read-only visitor with a method that recurses and returns a value. *)
Definition counting : visitor :=
  Visitor IsRecursiveTreeVisitor 10
    (<["visit_BinOp" := recurse_and_keep]> (<["visit_Leaf" := give (VInt 1)]> ∅)).

End Demo.

(** ** Registering a method *)

(** The visitor [self] with [visit_<tag>] defined as [m]. *)
Definition register (tag : string) (m : handler) (self : visitor) : visitor :=
  Visitor (vclass self) (root_class self) (<["visit_" +:+ tag := m]> (methods self)).

(** No value of the store is of a class named [tag]. *)
Definition untagged (tag : string) (σ : state) : Prop :=
  ∀ v cls, class_of (heap σ) v = Some cls → cls_name cls ≠ tag.

(** A store is untagged when the tag names no built-in class and no
    class of an instance in it. *)
Definition untagged_heap (tag : string) (h : gmap loc obj) : Prop :=
  (tag ∉ ["NoneType"; "object"; "int"; "str"; "tuple"; "list"]) ∧
  map_Forall (λ _ o, match o with Instance cls _ => cls_name cls ≠ tag | PyList _ => True end) h.

(** Two computations do the same from every state in [Inv], and a result
    is again in [Inv]. *)
Definition agree {A} (Inv : state → Prop) (m1 m2 : M A) : Prop :=
  ∀ σ, Inv σ → m1 σ = m2 σ ∧ ∀ a σ', m1 σ = Ok a σ' → Inv σ'.

Definition hooks_agree (Inv : state → Prop) (h1 h2 : hooks) : Prop :=
  (∀ v, agree Inv (self_visit h1 v) (self_visit h2 v)) ∧
  (∀ v, agree Inv (self_children_visit h1 v) (self_children_visit h2 v)).

(** A method that reaches the visitor only by calling [self.visit] and
    [self.children_visit], and that keeps [Inv]. *)
Definition respectful (Inv : state → Prop) (m : handler) : Prop :=
  ∀ h1 h2, hooks_agree Inv h1 h2 → ∀ v, agree Inv (m h1 v) (m h2 v).

Definition respectful_visitor (Inv : state → Prop) (self : visitor) : Prop :=
  map_Forall (λ _ m, respectful Inv m) (methods self) ∧
  match vclass self with
  | DirectSubclass generic_visit => respectful Inv generic_visit
  | _ => True
  end.

(** The state in which [visit] finds the resolved method. *)
Definition visiting (node : val) (σ : state) : state :=
  State (heap σ) (visited σ ++ [node]).

(** ** Computations that leave the store alone *)

(** A computation that, when it returns, has not changed the store. *)
Definition heap_pure {A} (m : M A) : Prop :=
  ∀ σ a σ', m σ = Ok a σ' → heap σ' = heap σ.

(** A method that changes the store only through [self.visit] and
    [self.children_visit]. *)
Definition pure_handler (m : handler) : Prop :=
  ∀ this,
    (∀ v, heap_pure (self_visit this v)) →
    (∀ v, heap_pure (self_children_visit this v)) →
    ∀ v, heap_pure (m this v).

(** What a computation does apart from the value it returns. *)
Definition effect {A} (o : outcome A) : outcome unit :=
  match o with
  | Ok _ σ => Ok tt σ
  | Raise e => Raise e
  | OutOfFuel => OutOfFuel
  end.

(** In the store [h], [visit] returns the root of the tree [k], which is an
    instance, logs the nodes of [k] in preorder and changes nothing else. *)
Definition kept (h : gmap loc obj) (visit : val → M val) (k : tree) : Prop :=
  (∃ l cls attrs, root k = VRef l ∧ h !! l = Some (Instance cls attrs)) ∧
  ∀ trace, visit (root k) (State h trace) = Ok (root k) (State h (trace ++ preorder k)).

(** Every node of the tree has a method, and it is [m]. *)
Fixpoint handled (h : gmap loc obj) (methods : gmap string handler) (m : handler)
    (t : tree) : Prop :=
  match t with
  | Tree node kids =>
      (∃ cls, class_of h node = Some cls ∧
              methods !! ("visit_" +:+ cls_name cls) = Some m) ∧
      foldr (λ k rest, handled h methods m k ∧ rest) True kids
  end.

(** * Reasoning about computations *)

Ltac munfold := unfold mbind, M_bind, bind, mret, M_ret, ret in *.

Lemma bind_unfold {A B} (m : M A) (f : A → M B) σ :
  (m ≫= f) σ = match m σ with
               | Ok a σ' => f a σ'
               | Raise e => Raise e
               | OutOfFuel => OutOfFuel
               end.
Proof. reflexivity. Qed.

Lemma bind_ok {A B} (m : M A) (f : A → M B) σ a σ' :
  m σ = Ok a σ' → (m ≫= f) σ = f a σ'.
Proof. intros H. rewrite bind_unfold, H. reflexivity. Qed.

Lemma bind_raise {A B} (m : M A) (f : A → M B) σ e :
  m σ = Raise e → (m ≫= f) σ = Raise e.
Proof. intros H. rewrite bind_unfold, H. reflexivity. Qed.

Lemma bind_out_of_fuel {A B} (m : M A) (f : A → M B) σ :
  m σ = OutOfFuel → (m ≫= f) σ = OutOfFuel.
Proof. intros H. rewrite bind_unfold, H. reflexivity. Qed.

Lemma list_item_stable l items i σ :
  heap σ !! l = Some (PyList items) →
  list_item (VRef l) i σ = Ok (items !! i) σ.
Proof. intros H. unfold list_item, list_items. rewrite H. reflexivity. Qed.

Lemma list_len_stable l items σ :
  heap σ !! l = Some (PyList items) →
  list_len (VRef l) σ = Ok (length items) σ.
Proof. intros H. unfold list_len, list_items. rewrite H. reflexivity. Qed.

(** The turn of the loop on an element, against the specification. *)
Lemma visit_list_body_contribution self visit element new_list σ :
  RecursiveTreeTransformer._visit_list_body self visit element new_list σ =
  (is_node ← isinstance element (root_class self);
   new ← (if is_node : bool then
            returned ← visit element;
            outcome ← (λ σ, Ok (edit_outcome_of (heap σ) returned) σ) : M edit_outcome;
            mret (contribution outcome)
          else mret [element]);
   mret (new_list ++ new)) σ.
Proof.
  unfold RecursiveTreeTransformer._visit_list_body, edit_outcome_of, iterate, isinstance,
    mbind, M_bind, bind, mret, M_ret, ret.
  destruct (is_instance (heap σ) element (root_class self)); [|reflexivity].
  destruct (visit element σ) as [r σ1| |]; [|reflexivity..].
  destruct r as [| | | | |l']; cbn; rewrite ?app_nil_r; try reflexivity.
  destruct (heap σ1 !! l') as [[]|]; reflexivity.
Qed.

Lemma visit_list_from_rebuild self visit Inv l items :
  list_stable Inv l items visit →
  ∀ rest done new_list σ steps,
    items = done ++ rest →
    Inv σ →
    length rest < steps →
    RecursiveTreeTransformer._visit_list_from self visit steps (VRef l) (length done) new_list σ =
    (new ← rebuild visit (root_class self) rest; mret (new_list ++ new)) σ.
Proof.
  intros [Hl Hstable] rest.
  induction rest as [|element rest IH]; intros done new_list σ steps Hitems Hσ Hsteps;
    (destruct steps as [|steps]; [cbn in Hsteps; lia|]);
    cbn [RecursiveTreeTransformer._visit_list_from rebuild];
    rewrite (bind_ok _ _ _ _ _ (list_item_stable _ _ _ _ (Hl _ Hσ))).
  - subst items. rewrite lookup_ge_None_2 by (rewrite length_app; cbn; lia).
    munfold. by rewrite app_nil_r.
  - assert (Hin : element ∈ items) by (subst items; set_solver).
    assert (Hlookup : items !! length done = Some element)
      by (subst items; by apply list_lookup_middle).
    rewrite Hlookup, bind_unfold, visit_list_body_contribution.
    assert (Hnext : ∀ new σ1, Inv σ1 →
      RecursiveTreeTransformer._visit_list_from self visit steps (VRef l)
        (S (length done)) (new_list ++ new) σ1 =
      (rest' ← rebuild visit (root_class self) rest; mret (new_list ++ new ++ rest')) σ1).
    { intros new σ1 Hσ1.
      replace (S (length done)) with (length (done ++ [element]))
        by (rewrite length_app; cbn; lia).
      rewrite (IH (done ++ [element]) (new_list ++ new) σ1 steps);
        [|by rewrite <- app_assoc|done|cbn in Hsteps; lia].
      munfold.
      destruct (rebuild visit (root_class self) rest σ1); [|reflexivity..].
      by rewrite app_assoc. }
    munfold. unfold isinstance.
    destruct (is_instance (heap σ) element (root_class self)).
    + destruct (visit element σ) as [r σ1| |] eqn:Hvisit; [|reflexivity..].
      rewrite Hnext by eauto.
      munfold.
      destruct (rebuild visit (root_class self) rest σ1); reflexivity.
    + rewrite Hnext by done.
      munfold.
      destruct (rebuild visit (root_class self) rest σ); reflexivity.
Qed.

Lemma visit_list_rebuild self fuel visit Inv l items σ :
  list_stable Inv l items visit →
  Inv σ →
  RecursiveTreeTransformer._visit_list self fuel visit (VRef l) σ =
  (new_list ← rebuild visit (root_class self) items;
   set_slice (VRef l) new_list;;
   mret VNone) σ.
Proof.
  intros Hstable Hσ. unfold RecursiveTreeTransformer._visit_list.
  rewrite (bind_ok _ _ _ _ _ (list_len_stable _ _ _ (proj1 Hstable _ Hσ))).
  rewrite bind_unfold.
  rewrite (visit_list_from_rebuild self visit Inv l items Hstable items [] [] σ);
    [|done|done|lia].
  munfold. destruct (rebuild visit (root_class self) items σ); reflexivity.
Qed.

Lemma visit_list_body_cases self visit element new_list σ :
  RecursiveTreeTransformer._visit_list_body self visit element new_list σ =
  if is_instance (heap σ) element (root_class self) then
    match visit element σ with
    | Ok r σ1 => Ok (new_list ++ contribution (edit_outcome_of (heap σ1) r)) σ1
    | Raise e => Raise e
    | OutOfFuel => OutOfFuel
    end
  else Ok (new_list ++ [element]) σ.
Proof.
  rewrite visit_list_body_contribution. munfold. unfold isinstance.
  destruct (is_instance _ _ _); [|reflexivity].
  destruct (visit element σ); reflexivity.
Qed.

(** The invariant of the example: the store is that of the block. *)
Lemma block_heap_stable v :
  list_stable (λ σ, heap σ = Demo.block_heap) 2 [Demo.a; Demo.b; Demo.c]
    (visit 2 (Demo.marking v)).
Proof.
  split.
  - intros σ ->. reflexivity.
  - intros e [h tr] r σ' Hin Hh Hvisit. cbn in Hh. subst h.
    rewrite !elem_of_cons, elem_of_nil in Hin.
    destruct Hin as [->|[->|[->|[]]]]; vm_compute in Hvisit;
      injection Hvisit as _ <-; reflexivity.
Qed.

(** C4. The list rebuild of the mutating traversal walks the old sequence in
    order and builds the new one from the outcome of each node element: a
    deleted element contributes nothing, an explicit null contributes
    [None], a returned sequence contributes its elements, one level deep, a
    returned node contributes itself, and an element that is not a node is
    copied. So [a, b, c] becomes [a, c] when [b] is deleted, [a, x, y, c]
    when [b] is replaced by [x, y], [a, None, c] when [b] is set to the
    explicit null, and [a, c] when [b] is replaced by an empty sequence. *)
Theorem list_rebuild_flattens_outcomes :
  (∀ self visit element new_list σ,
     RecursiveTreeTransformer._visit_list_body self visit element new_list σ =
     if is_instance (heap σ) element (root_class self) then
       match visit element σ with
       | Ok r σ1 => Ok (new_list ++ contribution (edit_outcome_of (heap σ1) r)) σ1
       | Raise e => Raise e
       | OutOfFuel => OutOfFuel
       end
     else Ok (new_list ++ [element]) σ) ∧
  (∀ h,
     contribution (edit_outcome_of h VNone) = [] ∧
     contribution (edit_outcome_of h VSentinel) = [VNone] ∧
     (∀ r nodes, r ≠ VNone → r ≠ VSentinel → elements h r = Some nodes →
        contribution (edit_outcome_of h r) = nodes) ∧
     (∀ r, r ≠ VNone → r ≠ VSentinel → elements h r = None →
        contribution (edit_outcome_of h r) = [r])) ∧
  (∀ self fuel visit Inv l items σ,
     list_stable Inv l items visit →
     Inv σ →
     RecursiveTreeTransformer._visit_list self fuel visit (VRef l) σ =
     (new_list ← rebuild visit (root_class self) items;
      set_slice (VRef l) new_list;;
      mret VNone) σ) ∧
  (let after v := list_after (Demo.run_visit_list (Demo.marking v) (VRef 2)
                                Demo.block_heap) 2 in
   after VNone = Some [Demo.a; Demo.c] ∧
   after (VRef 8) = Some [Demo.a; Demo.x; Demo.y; Demo.c] ∧
   after VSentinel = Some [Demo.a; VNone; Demo.c] ∧
   after (VTuple []) = Some [Demo.a; Demo.c]).
Proof.
  split; [exact visit_list_body_cases|].
  split.
  { intros h. repeat split.
    - intros r nodes H1 H2 Hel. unfold edit_outcome_of.
      destruct r; try congruence; by rewrite Hel.
    - intros r H1 H2 Hel. unfold edit_outcome_of.
      destruct r; try congruence; by rewrite Hel. }
  split; [exact visit_list_rebuild|].
  cbv zeta. repeat split; vm_compute; reflexivity.
Qed.

Lemma list_rebuild_flattens_outcomes_witness :
  let self := Demo.marking VNone in
  let σ := State Demo.block_heap [] in
  list_stable (λ σ, heap σ = Demo.block_heap) 2 [Demo.a; Demo.b; Demo.c]
    (visit 2 self) ∧
  heap σ = Demo.block_heap ∧
  RecursiveTreeTransformer._visit_list self 2 (visit 2 self) (VRef 2) σ =
  (new_list ← rebuild (visit 2 self) (root_class self) [Demo.a; Demo.b; Demo.c];
   set_slice (VRef 2) new_list;;
   mret VNone) σ.
Proof.
  cbv zeta. split; [apply block_heap_stable|]. split; [reflexivity|].
  apply (proj1 (proj2 (proj2 list_rebuild_flattens_outcomes))
           (Demo.marking VNone) 2 (visit 2 (Demo.marking VNone))
           (λ σ, heap σ = Demo.block_heap) 2 [Demo.a; Demo.b; Demo.c]).
  - apply block_heap_stable.
  - reflexivity.
Defined.

(** ** The rebuild writes once, at the end *)

(** Whatever the visits keep, a turn of the loop keeps: the turn itself
    writes nothing to the store. *)
Lemma visit_list_body_frame (P : state → Prop) self visit :
  (∀ v σ r σ', P σ → visit v σ = Ok r σ' → P σ') →
  ∀ element new_list σ new σ',
    P σ →
    RecursiveTreeTransformer._visit_list_body self visit element new_list σ = Ok new σ' →
    P σ'.
Proof.
  intros Hvisit element new_list σ new σ' HP. rewrite visit_list_body_cases.
  destruct (is_instance _ _ _).
  - destruct (visit element σ) as [r σ1| |] eqn:Hv; [|discriminate..].
    intros [= _ <-]. eauto.
  - by intros [= _ <-].
Qed.

Lemma visit_list_from_frame (P : state → Prop) self visit :
  (∀ v σ r σ', P σ → visit v σ = Ok r σ' → P σ') →
  ∀ steps original_list i new_list σ new σ',
    P σ →
    RecursiveTreeTransformer._visit_list_from self visit steps original_list i new_list σ
      = Ok new σ' →
    P σ'.
Proof.
  intros Hvisit steps.
  induction steps as [|steps IH]; intros original_list i new_list σ new σ' HP;
    [discriminate|].
  cbn [RecursiveTreeTransformer._visit_list_from]. rewrite bind_unfold.
  unfold list_item at 1.
  destruct (list_items (heap σ) original_list) as [items|]; [|discriminate].
  destruct (items !! i) as [element|]; [|by intros [= _ <-]].
  rewrite bind_unfold.
  destruct (RecursiveTreeTransformer._visit_list_body self visit element new_list σ)
    as [new1 σ1| |] eqn:Hbody; [|discriminate..].
  intros Hloop. eapply IH; [|exact Hloop].
  eapply visit_list_body_frame; eauto.
Qed.

Lemma visit_list_from_stable self visit Inv l items :
  list_stable Inv l items visit →
  ∀ steps i new_list σ new σ',
    Inv σ →
    RecursiveTreeTransformer._visit_list_from self visit steps (VRef l) i new_list σ
      = Ok new σ' →
    Inv σ'.
Proof.
  intros [Hl Hstable] steps.
  induction steps as [|steps IH]; intros i new_list σ new σ' Hσ; [discriminate|].
  cbn [RecursiveTreeTransformer._visit_list_from].
  rewrite (bind_ok _ _ _ _ _ (list_item_stable _ _ _ _ (Hl _ Hσ))).
  destruct (items !! i) as [element|] eqn:Hi; [|by intros [= _ <-]].
  rewrite bind_unfold, visit_list_body_cases.
  assert (element ∈ items) by (by eapply list_elem_of_lookup_2).
  destruct (is_instance _ _ _).
  - destruct (visit element σ) as [r σ1| |] eqn:Hv; [|discriminate..].
    apply IH. eauto.
  - by apply IH.
Qed.

(** [_visit_list] is its loop followed by one write. *)
Lemma visit_list_inv self fuel visit l σ r σ' :
  RecursiveTreeTransformer._visit_list self fuel visit (VRef l) σ = Ok r σ' →
  ∃ items new_list σ1,
    heap σ !! l = Some (PyList items) ∧
    RecursiveTreeTransformer._visit_list_from self visit (S (length items) + fuel)
      (VRef l) 0 [] σ = Ok new_list σ1 ∧
    is_Some (list_items (heap σ1) (VRef l)) ∧
    r = VNone ∧
    σ' = set_heap (<[l := PyList new_list]> (heap σ1)) σ1.
Proof.
  unfold RecursiveTreeTransformer._visit_list. rewrite bind_unfold.
  unfold list_len at 1, list_items at 1.
  destruct (heap σ !! l) as [[|items]|] eqn:Hl; try discriminate.
  rewrite bind_unfold.
  destruct (RecursiveTreeTransformer._visit_list_from _ _ _ _ _ _ _)
    as [new_list σ1| |] eqn:Hloop; [|discriminate..].
  rewrite bind_unfold. unfold set_slice at 1, list_items.
  destruct (heap σ1 !! l) as [[|items1]|] eqn:Hl1; try discriminate.
  intros [= <- <-]. exists items, new_list, σ1.
  rewrite Hl1. repeat split; eauto.
Qed.

(** C8. During the list rebuild of the mutating traversal the original
    sequence is not written to while it is walked: a turn of the loop and
    the loop as a whole keep every property of the store that the visits
    keep, so with visits that leave the list object alone its contents
    are still the original ones when the walk is over; the new sequence is
    built apart and replaces the contents of the old one in a single write
    after the loop. *)
Theorem list_rebuild_replaces_wholesale :
  (∀ (P : state → Prop) self visit,
     (∀ v σ r σ', P σ → visit v σ = Ok r σ' → P σ') →
     (∀ element new_list σ new σ',
        P σ →
        RecursiveTreeTransformer._visit_list_body self visit element new_list σ
          = Ok new σ' →
        P σ') ∧
     (∀ steps original_list i new_list σ new σ',
        P σ →
        RecursiveTreeTransformer._visit_list_from self visit steps original_list i
          new_list σ = Ok new σ' →
        P σ')) ∧
  (∀ self fuel visit Inv l items σ r σ',
     list_stable Inv l items visit →
     Inv σ →
     RecursiveTreeTransformer._visit_list self fuel visit (VRef l) σ = Ok r σ' →
     ∃ new_list σ1,
       RecursiveTreeTransformer._visit_list_from self visit (S (length items) + fuel)
         (VRef l) 0 [] σ = Ok new_list σ1 ∧
       heap σ1 !! l = Some (PyList items) ∧
       heap σ' = <[l := PyList new_list]> (heap σ1) ∧
       visited σ' = visited σ1 ∧
       r = VNone).
Proof.
  split.
  - intros P self visit Hvisit. split.
    + by apply visit_list_body_frame.
    + by apply visit_list_from_frame.
  - intros self fuel visit Inv l items σ r σ' Hstable Hσ Hrun.
    destruct (visit_list_inv _ _ _ _ _ _ _ Hrun)
      as (items' & new_list & σ1 & Hl & Hloop & _ & -> & ->).
    pose proof (proj1 Hstable _ Hσ) as Hl'.
    assert (items' = items) as -> by congruence.
    exists new_list, σ1. repeat split; [done|].
    apply (proj1 Hstable). eapply visit_list_from_stable; eauto.
Qed.

Lemma list_rebuild_replaces_wholesale_witness :
  ∃ new_list σ1,
    RecursiveTreeTransformer._visit_list_from (Demo.marking VNone)
      (visit 2 (Demo.marking VNone)) (S (length [Demo.a; Demo.b; Demo.c]) + 2)
      (VRef 2) 0 [] (State Demo.block_heap []) = Ok new_list σ1 ∧
    heap σ1 !! 2 = Some (PyList [Demo.a; Demo.b; Demo.c]) ∧
    heap (State (<[2 := PyList [Demo.a; Demo.c]]> Demo.block_heap)
            [Demo.a; Demo.b; Demo.c])
      = <[2 := PyList new_list]> (heap σ1) ∧
    visited (State (<[2 := PyList [Demo.a; Demo.c]]> Demo.block_heap)
               [Demo.a; Demo.b; Demo.c]) = visited σ1 ∧
    VNone = VNone.
Proof.
  apply (proj2 list_rebuild_replaces_wholesale
           (Demo.marking VNone) 2 (visit 2 (Demo.marking VNone))
           (λ σ, heap σ = Demo.block_heap) 2 [Demo.a; Demo.b; Demo.c]
           (State Demo.block_heap [])).
  - apply block_heap_stable.
  - reflexivity.
  - vm_compute. reflexivity.
Defined.

(** ** What counts as a splice *)

(** C9. In the list rebuild of the mutating traversal the value a visit
    returns for a node element is spliced whenever it can be iterated and
    is neither [None] nor the sentinel: its elements are added to the new
    list, one level deep. Whether the elements are nodes is not looked at,
    so a returned tuple contributes its components and a returned string
    its characters, as in the example, where returning ["xy"] for [b] turns
    [a, b, c] into [a, "x", "y", c]. *)
Theorem splice_is_any_iterable :
  (∀ self visit element new_list σ r σ1 items,
     is_instance (heap σ) element (root_class self) = true →
     visit element σ = Ok r σ1 →
     r ≠ VNone →
     r ≠ VSentinel →
     elements (heap σ1) r = Some items →
     RecursiveTreeTransformer._visit_list_body self visit element new_list σ
       = Ok (new_list ++ items) σ1) ∧
  (∀ h s, elements h (VStr s) = Some (chars s)) ∧
  (∀ h items, elements h (VTuple items) = Some items) ∧
  (let after v := list_after (Demo.run_visit_list (Demo.marking v) (VRef 2)
                                Demo.block_heap) 2 in
   after (VStr "xy") = Some [Demo.a; VStr "x"; VStr "y"; Demo.c] ∧
   after (VTuple [VInt 1; VStr "pq"]) = Some [Demo.a; VInt 1; VStr "pq"; Demo.c]).
Proof.
  split.
  { intros self visit element new_list σ r σ1 items Hnode Hvisit H1 H2 Hel.
    rewrite visit_list_body_cases, Hnode, Hvisit. unfold edit_outcome_of.
    destruct r; try congruence; by rewrite Hel. }
  repeat split; vm_compute; reflexivity.
Qed.

Lemma splice_is_any_iterable_witness :
  RecursiveTreeTransformer._visit_list_body (Demo.marking (VStr "xy"))
    (visit 2 (Demo.marking (VStr "xy"))) Demo.b [Demo.a]
    (State Demo.block_heap [Demo.a])
  = Ok ([Demo.a] ++ [VStr "x"; VStr "y"])
       (State Demo.block_heap [Demo.a; Demo.b]).
Proof.
  apply (proj1 splice_is_any_iterable) with (r := VStr "xy").
  - vm_compute. reflexivity.
  - vm_compute. reflexivity.
  - discriminate.
  - discriminate.
  - vm_compute. reflexivity.
Defined.

(** ** Dispatch *)

Lemma getattr_self_defined self this method default m :
  methods self !! method = Some m →
  BaseTreeVisitor.getattr_self self this method default = m this.
Proof. intros H. unfold BaseTreeVisitor.getattr_self, handler in *. by rewrite H. Qed.

Lemma getattr_self_default self this method default :
  methods self !! method = None →
  BaseTreeVisitor.getattr_self self this method default = default.
Proof. intros H. unfold BaseTreeVisitor.getattr_self, handler in *. by rewrite H. Qed.

Lemma visit_unfold fuel self node σ :
  visit (S fuel) self node σ =
  match class_of (heap σ) node with
  | Some cls =>
      BaseTreeVisitor.getattr_self self (bound_methods self fuel (visit fuel self))
        ("visit_" +:+ cls_name cls) (generic_visit_of self fuel (visit fuel self))
        node (visiting node σ)
  | None => Raise DanglingReference
  end.
Proof.
  cbn [visit]. unfold BaseTreeVisitor.visit, record_visit, get_class. munfold.
  cbn [heap]. destruct (class_of (heap σ) node); reflexivity.
Qed.

(** C7. [children_visit] of the base class, reached without a traversal
    mode that overrides it, raises [NotImplementedError] for every node and
    in every state; it does not return, and a [generic_visit] that relies
    on it fails the visit with the same error. *)
Theorem base_children_visit_not_implemented :
  (∀ node σ, BaseTreeVisitor.children_visit node σ = Raise NotImplementedError) ∧
  (∀ fuel generic_visit root_class methods node σ,
     children_visit fuel (Visitor (DirectSubclass generic_visit) root_class methods) node σ
       = Raise NotImplementedError) ∧
  (∀ fuel root_class (methods : gmap string handler) node σ cls,
     class_of (heap σ) node = Some cls →
     methods !! ("visit_" +:+ cls_name cls) = None →
     visit (S fuel) (Visitor (DirectSubclass Demo.recursing) root_class methods) node σ
       = Raise NotImplementedError).
Proof.
  repeat split.
  intros fuel rc ms node σ cls Hcls Hnone.
  rewrite visit_unfold, Hcls, getattr_self_default by exact Hnone. reflexivity.
Qed.

Lemma base_children_visit_not_implemented_witness :
  visit 1 Demo.direct (VRef 1) (State Demo.binop_heap []) = Raise NotImplementedError.
Proof.
  apply (proj2 (proj2 base_children_visit_not_implemented)) with (cls := Demo.BinOp).
  - vm_compute. reflexivity.
  - vm_compute. reflexivity.
Defined.

(** C10. The method [visit] calls is found by the name of the node's class
    alone: it is the attribute ["visit_" + name] of the visitor, or
    [generic_visit]. Two nodes whose classes share their name are given to
    one and the same method, whatever the identity, module, bases and
    fields of the two classes. *)
Theorem resolution_by_class_name_only fuel self σ l1 l2 cls1 cls2 attrs1 attrs2 :
  heap σ !! l1 = Some (Instance cls1 attrs1) →
  heap σ !! l2 = Some (Instance cls2 attrs2) →
  cls_name cls1 = cls_name cls2 →
  ∃ method : val → M val,
    method = BaseTreeVisitor.getattr_self self (bound_methods self fuel (visit fuel self))
               ("visit_" +:+ cls_name cls1) (generic_visit_of self fuel (visit fuel self)) ∧
    visit (S fuel) self (VRef l1) σ = method (VRef l1) (visiting (VRef l1) σ) ∧
    visit (S fuel) self (VRef l2) σ = method (VRef l2) (visiting (VRef l2) σ).
Proof.
  intros H1 H2 Hname. eexists. split; [reflexivity|].
  rewrite !visit_unfold. cbn [class_of]. rewrite H1, H2, Hname. done.
Qed.

Lemma resolution_by_class_name_only_witness :
  let self := register "Name" (Demo.give (VStr "seen")) Demo.plain_visitor in
  let σ := State Demo.names_heap [] in
  ∃ method : val → M val,
    method = BaseTreeVisitor.getattr_self self (bound_methods self 1 (visit 1 self))
               ("visit_" +:+ cls_name Demo.Name1) (generic_visit_of self 1 (visit 1 self)) ∧
    visit 2 self (VRef 1) σ = method (VRef 1) (visiting (VRef 1) σ) ∧
    visit 2 self (VRef 2) σ = method (VRef 2) (visiting (VRef 2) σ).
Proof.
  cbv zeta.
  apply (resolution_by_class_name_only 1
           (register "Name" (Demo.give (VStr "seen")) Demo.plain_visitor)
           (State Demo.names_heap []) 1 2 Demo.Name1 Demo.Name2
           (<["id" := VStr "n"]> ∅) ∅).
  - vm_compute. reflexivity.
  - vm_compute. reflexivity.
  - reflexivity.
Defined.

(** ** The default action of the mutating traversal *)

(** C3. [RecursiveTreeTransformer.generic_visit] applies [children_visit]
    to the node and returns [None]: the node itself is not returned, so a
    node with no method of its own is visited with the delete outcome and
    not with the keep outcome. The leaf at location 2 is one such node. *)
Theorem transformer_generic_visit_returns_none :
  (∀ fuel root_class methods node σ,
     let self := Visitor IsRecursiveTreeTransformer root_class methods in
     generic_visit fuel self node σ =
     (_ ← children_visit fuel self node; mret VNone) σ) ∧
  (∀ fuel root_class methods node σ,
     let self := Visitor IsRecursiveTreeTransformer root_class methods in
     returned (generic_visit fuel self node σ) = None ∨
     returned (generic_visit fuel self node σ) = Some VNone) ∧
  (let o := visit 1 Demo.plain_transformer (VRef 2) (State Demo.binop_heap []) in
   returned o = Some VNone ∧
   edit_outcome_of Demo.binop_heap VNone = Delete ∧
   edit_outcome_of Demo.binop_heap (VRef 2) = Keep (VRef 2)).
Proof.
  split; [reflexivity|]. split.
  - intros fuel rc ms node σ. cbv zeta.
    unfold generic_visit, generic_visit_of, RecursiveTreeTransformer.generic_visit.
    cbn [vclass]. rewrite bind_unfold.
    destruct (RecursiveTreeTransformer.children_visit _ _ _ _ _); cbn; auto.
  - cbv zeta. repeat split; vm_compute; reflexivity.
Qed.

Lemma plain_transformer_returns_none fuel rc node σ :
  returned (visit fuel (Visitor IsRecursiveTreeTransformer rc ∅) node σ) = None ∨
  returned (visit fuel (Visitor IsRecursiveTreeTransformer rc ∅) node σ) = Some VNone.
Proof.
  destruct fuel as [|fuel]; [by left|].
  rewrite visit_unfold. destruct (class_of (heap σ) node); [|by left].
  rewrite getattr_self_default by apply lookup_empty.
  unfold generic_visit_of, RecursiveTreeTransformer.generic_visit.
  cbn [vclass]. rewrite bind_unfold.
  destruct (RecursiveTreeTransformer.children_visit _ _ _ _ _); cbn; auto.
Qed.

(** C1. With no method of its own the mutating traversal does not leave
    the tree as it was: every visit that returns returns [None], so the
    visit of the root returns [None] and not the root, the two child fields
    of the node at location 1 hold [None] afterwards, and a list field
    loses every node it held. *)
Theorem default_transformer_strips_children :
  (∀ fuel rc node σ,
     let o := visit fuel (Visitor IsRecursiveTreeTransformer rc ∅) node σ in
     returned o = None ∨ returned o = Some VNone) ∧
  (let o := visit 3 Demo.plain_transformer (VRef 1) (State Demo.binop_heap []) in
   iter_fields Demo.binop_heap (VRef 1) = Some [("left", VRef 2); ("right", VRef 3)] ∧
   returned o = Some VNone ∧
   attr_after o (VRef 1) "left" = Some (Some VNone) ∧
   attr_after o (VRef 1) "right" = Some (Some VNone) ∧
   fields_after o (VRef 1) = Some [("left", VNone); ("right", VNone)]) ∧
  (let o := visit 3 Demo.plain_transformer (VRef 1) (State Demo.block_heap []) in
   list_items Demo.block_heap (VRef 2) = Some [Demo.a; Demo.b; Demo.c] ∧
   returned o = Some VNone ∧
   fields_after o (VRef 1) = Some [("body", VRef 2)] ∧
   list_after o 2 = Some []).
Proof.
  split; [exact plain_transformer_returns_none|].
  cbv zeta. repeat split; vm_compute; reflexivity.
Qed.

(** ** Deleting a field and setting it to [None] *)

(** After [delattr] the field is set again: whether the visit of a child
    returns [None] or the sentinel, the field ends up holding [None]. *)
Lemma children_visit_field_none self fuel visit l cls attrs field child σ r σ1 attrs1 :
  heap σ !! l = Some (Instance cls attrs) →
  attrs !! field = Some child →
  list_items (heap σ) child = None →
  is_instance (heap σ) child (root_class self) = true →
  visit child σ = Ok r σ1 →
  r = VNone ∨ r = VSentinel →
  heap σ1 !! l = Some (Instance cls attrs1) →
  (r = VNone → is_Some (attrs1 !! field)) →
  RecursiveTreeTransformer.children_visit_field self fuel visit (VRef l) field σ =
  Ok tt (set_heap (<[l := Instance cls (<[field := VNone]> attrs1)]> (heap σ1)) σ1).
Proof.
  intros Hl Hfield Hlist Hnode Hvisit Hr Hl1 Hfield1.
  unfold RecursiveTreeTransformer.children_visit_field, iter_fields_next, attr,
    isinstance_list, isinstance.
  munfold. rewrite Hl, Hfield. cbn [fmap option_fmap option_map].
  rewrite Hlist. rewrite bool_decide_eq_false_2 by (by intros [? ?]).
  rewrite Hnode, Hvisit.
  destruct Hr as [-> | ->].
  - destruct (Hfield1 eq_refl) as [v1 Hv1].
    unfold delattr, setattr. rewrite Hl1, Hv1. cbn [heap set_heap].
    rewrite lookup_insert_eq, insert_insert_eq, insert_delete_eq.
    reflexivity.
  - unfold setattr. rewrite Hl1. reflexivity.
Qed.

(** C2. When the visit of a single child returns [None] the mutating
    traversal deletes the field and then sets it to [None], so the field
    is still there and is still enumerated, with the value [None]; this is
    the state the explicit-null outcome produces, and the two cannot be
    told apart. *)
Theorem delete_outcome_leaves_field_present :
  (∀ self fuel visit l cls attrs field child σ r σ1 attrs1,
     heap σ !! l = Some (Instance cls attrs) →
     attrs !! field = Some child →
     list_items (heap σ) child = None →
     is_instance (heap σ) child (root_class self) = true →
     visit child σ = Ok r σ1 →
     r = VNone ∨ r = VSentinel →
     heap σ1 !! l = Some (Instance cls attrs1) →
     (r = VNone → is_Some (attrs1 !! field)) →
     RecursiveTreeTransformer.children_visit_field self fuel visit (VRef l) field σ =
     Ok tt (set_heap (<[l := Instance cls (<[field := VNone]> attrs1)]> (heap σ1)) σ1)) ∧
  (let deleted :=
     children_visit 2 (Demo.on_leaf VNone) (VRef 1) (State Demo.binop_heap []) in
   let nulled :=
     children_visit 2 (Demo.on_leaf VSentinel) (VRef 1) (State Demo.binop_heap []) in
   returned (visit 1 (Demo.on_leaf VNone) (VRef 2) (State Demo.binop_heap []))
     = Some VNone ∧
   returned (visit 1 (Demo.on_leaf VSentinel) (VRef 2) (State Demo.binop_heap []))
     = Some VSentinel ∧
   attr_after deleted (VRef 1) "left" = Some (Some VNone) ∧
   attr_after nulled (VRef 1) "left" = Some (Some VNone) ∧
   fields_after deleted (VRef 1) = Some [("left", VNone); ("right", VNone)] ∧
   fields_after nulled (VRef 1) = Some [("left", VNone); ("right", VNone)] ∧
   deleted = nulled).
Proof.
  split; [exact children_visit_field_none|].
  cbv zeta. repeat split; vm_compute; reflexivity.
Qed.

Lemma delete_outcome_leaves_field_present_witness :
  RecursiveTreeTransformer.children_visit_field (Demo.on_leaf VNone) 1
    (visit 1 (Demo.on_leaf VNone)) (VRef 1) "left" (State Demo.binop_heap [])
  = Ok tt
      (set_heap
         (<[1 := Instance Demo.BinOp
                   (<["left" := VNone]> (<["left" := VRef 2]> (<["right" := VRef 3]> ∅)))]>
            Demo.binop_heap)
         (State Demo.binop_heap [VRef 2])).
Proof.
  apply (proj1 delete_outcome_leaves_field_present (Demo.on_leaf VNone) 1
           (visit 1 (Demo.on_leaf VNone)) 1 Demo.BinOp
           (<["left" := VRef 2]> (<["right" := VRef 3]> ∅)) "left" (VRef 2)
           (State Demo.binop_heap []) VNone (State Demo.binop_heap [VRef 2])).
  - vm_compute. reflexivity.
  - vm_compute. reflexivity.
  - vm_compute. reflexivity.
  - vm_compute. reflexivity.
  - vm_compute. reflexivity.
  - by left.
  - vm_compute. reflexivity.
  - intros _. exists (VRef 2). vm_compute. reflexivity.
Defined.

(** ** Computations that agree *)

Section Agreement.
Context (Inv : state → Prop).

(** [Inv] looks at the classes of the values only. *)
Hypothesis Inv_classes :
  ∀ σ σ', (∀ v, class_of (heap σ') v = class_of (heap σ) v) → Inv σ → Inv σ'.

Lemma agree_ret {A} (a : A) : agree Inv (mret a) (mret a).
Proof. intros σ Hσ. split; [reflexivity|]. by intros ? ? [= _ <-]. Qed.

Lemma agree_bind {A B} (m1 m2 : M A) (f1 f2 : A → M B) :
  agree Inv m1 m2 →
  (∀ a, agree Inv (f1 a) (f2 a)) →
  agree Inv (m1 ≫= f1) (m2 ≫= f2).
Proof.
  intros Hm Hf σ Hσ. destruct (Hm σ Hσ) as [Heq Hkeep].
  rewrite !bind_unfold, <- Heq.
  destruct (m1 σ) as [a σ1| |]; [|by split..].
  apply Hf. by eapply Hkeep.
Qed.

(** A computation that only reads the state. *)
Lemma agree_read {A} (m : M A) :
  (∀ σ a σ', m σ = Ok a σ' → σ' = σ) → agree Inv m m.
Proof.
  intros Hread σ Hσ. split; [reflexivity|].
  intros a σ' Hm. by rewrite (Hread _ _ _ Hm).
Qed.

(** A computation that keeps the class of every value. *)
Lemma agree_classes {A} (m : M A) :
  (∀ σ a σ', m σ = Ok a σ' → ∀ v, class_of (heap σ') v = class_of (heap σ) v) →
  agree Inv m m.
Proof.
  intros Hm σ Hσ. split; [reflexivity|].
  intros a σ' Hrun. eapply Inv_classes; [|exact Hσ]. eauto.
Qed.

Lemma agree_raise {A} e : agree Inv (raise e : M A) (raise e).
Proof. intros σ Hσ. by split. Qed.

Lemma agree_out_of_fuel {A} : agree Inv (out_of_fuel : M A) out_of_fuel.
Proof. intros σ Hσ. by split. Qed.

Lemma agree_isinstance v root_class : agree Inv (isinstance v root_class) (isinstance v root_class).
Proof. apply agree_read. by intros σ a σ' [= _ <-]. Qed.

Lemma agree_isinstance_list v : agree Inv (isinstance_list v) (isinstance_list v).
Proof. apply agree_read. by intros σ a σ' [= _ <-]. Qed.

Lemma agree_iterate v : agree Inv (iterate v) (iterate v).
Proof. apply agree_read. by intros σ a σ' [= _ <-]. Qed.

Lemma agree_getattr node field default :
  agree Inv (getattr node field default) (getattr node field default).
Proof. apply agree_read. by intros σ a σ' [= _ <-]. Qed.

Lemma agree_iter_fields_next node field :
  agree Inv (iter_fields_next node field) (iter_fields_next node field).
Proof. apply agree_read. by intros σ a σ' [= _ <-]. Qed.

Lemma agree_get_class node : agree Inv (get_class node) (get_class node).
Proof.
  apply agree_read. intros σ a σ'. unfold get_class.
  destruct (class_of _ _); [|discriminate]. by intros [= _ <-].
Qed.

Lemma agree_list_item original_list i :
  agree Inv (list_item original_list i) (list_item original_list i).
Proof.
  apply agree_read. intros σ a σ'. unfold list_item.
  destruct (list_items _ _); [|discriminate]. by intros [= _ <-].
Qed.

Lemma agree_list_len original_list :
  agree Inv (list_len original_list) (list_len original_list).
Proof.
  apply agree_read. intros σ a σ'. unfold list_len.
  destruct (list_items _ _); [|discriminate]. by intros [= _ <-].
Qed.

Lemma agree_declared_fields node :
  agree Inv (declared_fields node) (declared_fields node).
Proof.
  apply agree_read. intros σ a σ'. unfold declared_fields.
  destruct node; try discriminate.
  destruct (heap σ !! l) as [[]|]; try discriminate. by intros [= _ <-].
Qed.

Lemma agree_record_visit node : agree Inv (record_visit node) (record_visit node).
Proof. apply agree_classes. by intros σ a σ' [= _ <-]. Qed.

Lemma class_of_insert_instance h l cls attrs attrs' v :
  h !! l = Some (Instance cls attrs) →
  class_of (<[l := Instance cls attrs']> h) v = class_of h v.
Proof.
  intros Hl. destruct v as [| | | | |l']; try reflexivity. cbn.
  destruct (decide (l = l')) as [<-|Hne].
  - by rewrite lookup_insert_eq, Hl.
  - by rewrite lookup_insert_ne.
Qed.

Lemma class_of_insert_list h l items items' v :
  h !! l = Some (PyList items) →
  class_of (<[l := PyList items']> h) v = class_of h v.
Proof.
  intros Hl. destruct v as [| | | | |l']; try reflexivity. cbn.
  destruct (decide (l = l')) as [<-|Hne].
  - by rewrite lookup_insert_eq, Hl.
  - by rewrite lookup_insert_ne.
Qed.

Lemma agree_setattr node field v : agree Inv (setattr node field v) (setattr node field v).
Proof.
  apply agree_classes. intros σ a σ'. unfold setattr.
  destruct node; try discriminate.
  destruct (heap σ !! l) as [[cls attrs|]|] eqn:Hl; try discriminate.
  intros [= _ <-] w. cbn. by eapply class_of_insert_instance.
Qed.

Lemma agree_delattr node field : agree Inv (delattr node field) (delattr node field).
Proof.
  apply agree_classes. intros σ a σ'. unfold delattr.
  destruct node; try discriminate.
  destruct (heap σ !! l) as [[cls attrs|]|] eqn:Hl; try discriminate.
  destruct (attrs !! field); try discriminate.
  intros [= _ <-] w. cbn. by eapply class_of_insert_instance.
Qed.

Lemma agree_set_slice original_list new_list :
  agree Inv (set_slice original_list new_list) (set_slice original_list new_list).
Proof.
  apply agree_classes. intros σ a σ'. unfold set_slice.
  destruct original_list; try discriminate.
  destruct (heap σ !! l) as [[|items]|] eqn:Hl; try discriminate.
  intros [= _ <-] w. cbn. by eapply class_of_insert_list.
Qed.

End Agreement.

Ltac agree_step Inv_classes :=
  first
    [ apply agree_ret
    | apply agree_raise
    | apply agree_out_of_fuel
    | apply agree_isinstance
    | apply agree_isinstance_list
    | apply agree_iterate
    | apply agree_getattr
    | apply agree_iter_fields_next
    | apply agree_get_class
    | apply agree_list_item
    | apply agree_list_len
    | apply agree_declared_fields
    | apply (agree_record_visit _ Inv_classes)
    | apply (agree_setattr _ Inv_classes)
    | apply (agree_delattr _ Inv_classes)
    | apply (agree_set_slice _ Inv_classes)
    | assumption
    | match goal with
      | H : ∀ v, agree _ (_ v) (_ v) |- agree _ (_ ?v) (_ ?v) => apply H
      | |- agree _ (match ?x with _ => _ end) (match ?x with _ => _ end) => destruct x
      | |- agree _ (_ ≫= _) (_ ≫= _) => apply agree_bind; [|intros ?]
      end ].

Ltac agree_auto Inv_classes := repeat agree_step Inv_classes.

Section MethodsAgree.
Context (Inv : state → Prop).
Hypothesis Inv_classes :
  ∀ σ σ', (∀ v, class_of (heap σ') v = class_of (heap σ) v) → Inv σ → Inv σ'.
Context (self1 self2 : visitor) (fuel : nat) (visit1 visit2 : val → M val).
Hypothesis Hroot : root_class self1 = root_class self2.
Hypothesis Hvisit : ∀ v, agree Inv (visit1 v) (visit2 v).

Lemma transformer_visit_list_body_agree element new_list :
  agree Inv (RecursiveTreeTransformer._visit_list_body self1 visit1 element new_list)
            (RecursiveTreeTransformer._visit_list_body self2 visit2 element new_list).
Proof.
  unfold RecursiveTreeTransformer._visit_list_body. rewrite Hroot.
  agree_auto Inv_classes.
Qed.

Lemma transformer_visit_list_from_agree steps original_list i new_list :
  agree Inv (RecursiveTreeTransformer._visit_list_from self1 visit1 steps original_list i new_list)
            (RecursiveTreeTransformer._visit_list_from self2 visit2 steps original_list i new_list).
Proof.
  revert i new_list. induction steps as [|steps IH]; intros i new_list;
    cbn [RecursiveTreeTransformer._visit_list_from].
  - apply agree_out_of_fuel.
  - apply agree_bind; [agree_auto Inv_classes|]. intros [element|]; [|apply agree_ret].
    apply agree_bind; [apply transformer_visit_list_body_agree|]. intros ?. apply IH.
Qed.

Lemma transformer_visit_list_agree original_list :
  agree Inv (RecursiveTreeTransformer._visit_list self1 fuel visit1 original_list)
            (RecursiveTreeTransformer._visit_list self2 fuel visit2 original_list).
Proof.
  unfold RecursiveTreeTransformer._visit_list.
  apply agree_bind; [agree_auto Inv_classes|]. intros n.
  apply agree_bind; [apply transformer_visit_list_from_agree|]. intros new_list.
  agree_auto Inv_classes.
Qed.

Lemma transformer_children_visit_field_agree node field :
  agree Inv (RecursiveTreeTransformer.children_visit_field self1 fuel visit1 node field)
            (RecursiveTreeTransformer.children_visit_field self2 fuel visit2 node field).
Proof.
  unfold RecursiveTreeTransformer.children_visit_field. rewrite Hroot.
  apply agree_bind; [agree_auto Inv_classes|]. intros [[field' old_value]|]; [|apply agree_ret].
  apply agree_bind; [agree_auto Inv_classes|]. intros [|].
  - apply agree_bind; [apply transformer_visit_list_agree|]. intros ?. apply agree_ret.
  - agree_auto Inv_classes.
Qed.

Lemma transformer_children_visit_fields_agree node fields :
  agree Inv (RecursiveTreeTransformer.children_visit_fields self1 fuel visit1 node fields)
            (RecursiveTreeTransformer.children_visit_fields self2 fuel visit2 node fields).
Proof.
  induction fields as [|field fields IH]; cbn [RecursiveTreeTransformer.children_visit_fields].
  - apply agree_ret.
  - apply agree_bind; [apply transformer_children_visit_field_agree|]. intros ?. apply IH.
Qed.

Lemma transformer_children_visit_agree node :
  agree Inv (RecursiveTreeTransformer.children_visit self1 fuel visit1 node)
            (RecursiveTreeTransformer.children_visit self2 fuel visit2 node).
Proof.
  unfold RecursiveTreeTransformer.children_visit.
  apply agree_bind; [agree_auto Inv_classes|]. intros fields.
  apply agree_bind; [apply transformer_children_visit_fields_agree|]. intros ?.
  apply agree_ret.
Qed.

Lemma visitor_visit_list_from_agree steps original_list i :
  agree Inv (RecursiveTreeVisitor._visit_list_from self1 visit1 steps original_list i)
            (RecursiveTreeVisitor._visit_list_from self2 visit2 steps original_list i).
Proof.
  revert i. induction steps as [|steps IH]; intros i;
    cbn [RecursiveTreeVisitor._visit_list_from].
  - apply agree_out_of_fuel.
  - rewrite Hroot.
    apply agree_bind; [agree_auto Inv_classes|]. intros [element|]; [|apply agree_ret].
    apply agree_bind; [agree_auto Inv_classes|]. intros is_node.
    apply agree_bind; [agree_auto Inv_classes|]. intros ?. apply IH.
Qed.

Lemma visitor_visit_list_agree original_list :
  agree Inv (RecursiveTreeVisitor._visit_list self1 fuel visit1 original_list)
            (RecursiveTreeVisitor._visit_list self2 fuel visit2 original_list).
Proof.
  unfold RecursiveTreeVisitor._visit_list.
  apply agree_bind; [agree_auto Inv_classes|]. intros n.
  apply visitor_visit_list_from_agree.
Qed.

Lemma visitor_children_visit_field_agree node field :
  agree Inv (RecursiveTreeVisitor.children_visit_field self1 fuel visit1 node field)
            (RecursiveTreeVisitor.children_visit_field self2 fuel visit2 node field).
Proof.
  unfold RecursiveTreeVisitor.children_visit_field. rewrite Hroot.
  apply agree_bind; [agree_auto Inv_classes|]. intros [[field' yielded]|]; [|apply agree_ret].
  apply agree_bind; [agree_auto Inv_classes|]. intros value.
  apply agree_bind; [agree_auto Inv_classes|]. intros [|].
  - apply agree_bind; [apply visitor_visit_list_agree|]. intros ?. apply agree_ret.
  - agree_auto Inv_classes.
Qed.

Lemma visitor_children_visit_fields_agree node fields :
  agree Inv (RecursiveTreeVisitor.children_visit_fields self1 fuel visit1 node fields)
            (RecursiveTreeVisitor.children_visit_fields self2 fuel visit2 node fields).
Proof.
  induction fields as [|field fields IH]; cbn [RecursiveTreeVisitor.children_visit_fields].
  - apply agree_ret.
  - apply agree_bind; [apply visitor_children_visit_field_agree|]. intros ?. apply IH.
Qed.

Lemma visitor_children_visit_agree node :
  agree Inv (RecursiveTreeVisitor.children_visit self1 fuel visit1 node)
            (RecursiveTreeVisitor.children_visit self2 fuel visit2 node).
Proof.
  unfold RecursiveTreeVisitor.children_visit.
  apply agree_bind; [agree_auto Inv_classes|]. intros fields.
  apply agree_bind; [apply visitor_children_visit_fields_agree|]. intros ?.
  apply agree_ret.
Qed.

Hypothesis Hclass : vclass self1 = vclass self2.

Lemma children_visit_of_agree node :
  agree Inv (children_visit_of self1 fuel visit1 node) (children_visit_of self2 fuel visit2 node).
Proof.
  unfold children_visit_of. rewrite Hclass. destruct (vclass self2).
  - apply agree_raise.
  - apply visitor_children_visit_agree.
  - apply transformer_children_visit_agree.
Qed.

Lemma bound_methods_agree :
  hooks_agree Inv (bound_methods self1 fuel visit1) (bound_methods self2 fuel visit2).
Proof. split; [exact Hvisit|exact children_visit_of_agree]. Qed.

Lemma generic_visit_of_agree node :
  match vclass self2 with
  | DirectSubclass generic_visit => respectful Inv generic_visit
  | _ => True
  end →
  agree Inv (generic_visit_of self1 fuel visit1 node) (generic_visit_of self2 fuel visit2 node).
Proof.
  pose proof bound_methods_agree as Hbound.
  unfold generic_visit_of. rewrite Hclass. destruct (vclass self2) as [g| |]; intros Hg.
  - by apply Hg.
  - unfold RecursiveTreeVisitor.generic_visit.
    apply agree_bind; [apply visitor_children_visit_agree|]. intros ?. apply agree_ret.
  - unfold RecursiveTreeTransformer.generic_visit.
    apply agree_bind; [apply transformer_children_visit_agree|]. intros ?. apply agree_ret.
Qed.

End MethodsAgree.

(** ** A method for a class that no node has *)

Lemma untagged_classes tag σ σ' :
  (∀ v, class_of (heap σ') v = class_of (heap σ) v) → untagged tag σ → untagged tag σ'.
Proof. intros Hcls Hσ v cls Hv. apply (Hσ v). by rewrite <- Hcls. Qed.

Lemma visit_method_name_inj tag1 tag2 :
  "visit_" +:+ tag1 = "visit_" +:+ tag2 → tag1 = tag2.
Proof. intros H. cbn in H. by injection H. Qed.

Lemma untagged_visiting tag node σ : untagged tag σ → untagged tag (visiting node σ).
Proof. intros Hσ. exact Hσ. Qed.

Lemma unused_method_agree tag m self :
  respectful_visitor (untagged tag) self →
  ∀ fuel node, agree (untagged tag) (visit fuel (register tag m self) node) (visit fuel self node).
Proof.
  intros [Hmethods Hgeneric] fuel.
  induction fuel as [|fuel IH]; intros node; [apply agree_out_of_fuel|].
  intros σ Hσ. rewrite !visit_unfold.
  destruct (class_of (heap σ) node) as [cls|] eqn:Hcls; [|by split].
  assert (Hne : "visit_" +:+ tag ≠ "visit_" +:+ cls_name cls).
  { intros Heq. apply visit_method_name_inj in Heq. by eapply Hσ. }
  assert (Hbound : hooks_agree (untagged tag)
            (bound_methods (register tag m self) fuel (visit fuel (register tag m self)))
            (bound_methods self fuel (visit fuel self))).
  { apply bound_methods_agree; [apply untagged_classes|reflexivity|exact IH|reflexivity]. }
  destruct (methods self !! ("visit_" +:+ cls_name cls)) as [method|] eqn:Hmethod.
  - rewrite (getattr_self_defined (register tag m self) _ _ _ method)
      by (cbn [register methods]; by rewrite lookup_insert_ne).
    rewrite (getattr_self_defined self _ _ _ method) by done.
    apply (Hmethods _ _ Hmethod _ _ Hbound node). by apply untagged_visiting.
  - rewrite (getattr_self_default (register tag m self))
      by (cbn [register methods]; by rewrite lookup_insert_ne).
    rewrite (getattr_self_default self) by done.
    apply generic_visit_of_agree;
      [apply untagged_classes|reflexivity|exact IH|reflexivity|exact Hgeneric|].
    by apply untagged_visiting.
Qed.

Lemma untagged_heap_untagged tag σ : untagged_heap tag (heap σ) → untagged tag σ.
Proof.
  intros [Hbuiltin Hheap] v cls Hv Htag. subst tag.
  destruct v as [| | | | |l]; cbn in Hv;
    try (injection Hv as <-; apply Hbuiltin; cbn; set_solver).
  destruct (heap σ !! l) as [[cls' attrs|items]|] eqn:Hl; [| |discriminate];
    injection Hv as <-.
  - by apply (Hheap _ _ Hl).
  - apply Hbuiltin. cbn. set_solver.
Qed.

Lemma respectful_keep Inv : respectful Inv Demo.keep.
Proof. intros h1 h2 _ v. apply agree_ret. Qed.

Lemma respectful_give Inv result : respectful Inv (Demo.give result).
Proof. intros h1 h2 _ v. apply agree_ret. Qed.

Lemma respectful_recurse_and_keep Inv : respectful Inv Demo.recurse_and_keep.
Proof.
  intros h1 h2 [_ Hchildren] v. unfold Demo.recurse_and_keep.
  apply agree_bind; [apply Hchildren|]. intros ?. apply agree_ret.
Qed.

Lemma respectful_editing Inv : respectful_visitor Inv Demo.editing.
Proof.
  split; [|exact I]. unfold Demo.editing. cbn [methods].
  repeat apply map_Forall_insert_2; [..|apply map_Forall_empty].
  - apply respectful_recurse_and_keep.
  - apply respectful_keep.
  - apply respectful_give.
Qed.

(** C6. [visit] finds the method by the name of the node's class: the
    method registered for that name is called when there is one, and the
    generic fallback otherwise. Registering a method for a name that no
    value of the store carries, and that the methods of the visitor never
    bring into it, changes nothing: every visit gives the same result, or
    the same error, as without it. *)
Theorem dispatch_by_type_tag :
  (∀ fuel self node σ cls,
     class_of (heap σ) node = Some cls →
     (∀ method, methods self !! ("visit_" +:+ cls_name cls) = Some method →
        visit (S fuel) self node σ =
        method (bound_methods self fuel (visit fuel self)) node (visiting node σ)) ∧
     (methods self !! ("visit_" +:+ cls_name cls) = None →
        visit (S fuel) self node σ =
        generic_visit_of self fuel (visit fuel self) node (visiting node σ))) ∧
  (∀ tag method self fuel node σ,
     respectful_visitor (untagged tag) self →
     untagged tag σ →
     visit fuel (register tag method self) node σ = visit fuel self node σ).
Proof.
  split.
  - intros fuel self node σ cls Hcls. rewrite visit_unfold, Hcls. split.
    + intros method Hm. by rewrite (getattr_self_defined _ _ _ _ method).
    + intros Hm. by rewrite getattr_self_default.
  - intros tag method self fuel node σ Hself Hσ.
    by apply (unused_method_agree tag method self Hself fuel node σ).
Qed.

Lemma dispatch_by_type_tag_witness :
  respectful_visitor (untagged "Unused") Demo.editing ∧
  untagged "Unused" (State Demo.block_heap []) ∧
  visit 4 (register "Unused" (Demo.give VSentinel) Demo.editing) (VRef 1)
    (State Demo.block_heap [])
  = visit 4 Demo.editing (VRef 1) (State Demo.block_heap []).
Proof.
  assert (Hσ : untagged "Unused" (State Demo.block_heap [])).
  { apply untagged_heap_untagged. split.
    - intros Hin. repeat (apply elem_of_cons in Hin as [Hin|Hin]; [discriminate|]).
      by apply elem_of_nil in Hin.
    - unfold Demo.block_heap.
      repeat (apply map_Forall_insert_2; [done|]). apply map_Forall_empty. }
  split; [apply respectful_editing|]. split; [exact Hσ|].
  apply (proj2 dispatch_by_type_tag "Unused" (Demo.give VSentinel) Demo.editing 4
           (VRef 1) (State Demo.block_heap [])).
  - apply respectful_editing.
  - exact Hσ.
Defined.

(** ** The read-only traversal of a tree *)

Lemma tree_induction (P : tree → Prop) :
  (∀ node kids, Forall P kids → P (Tree node kids)) → ∀ t, P t.
Proof.
  intros Hnode. fix IH 1. intros [node kids]. apply Hnode.
  induction kids as [|k kids IHkids]; constructor; [apply IH|exact IHkids].
Qed.

Lemma height_kid k kids : k ∈ kids → (height k ≤ list_max (map height kids))%nat.
Proof.
  induction kids as [|k' kids IH]; intros Hin; [by apply elem_of_nil in Hin|].
  unfold list_max in *. cbn [map fold_right].
  apply elem_of_cons in Hin as [->|Hin]; [lia|]. specialize (IH Hin). lia.
Qed.

Section ReadOnly.
Context (h : gmap loc obj) (rc : nat).

Local Abbreviation self := (Visitor IsRecursiveTreeVisitor rc ∅).

Lemma visitor_visit_list_from_trace fuel original_list items :
  list_items h original_list = Some items →
  ∀ rest done kids trace steps,
    items = done ++ rest →
    List.filter (λ e, is_instance h e rc) rest = root <$> kids →
    Forall (visits h rc fuel) kids →
    length rest < steps →
    RecursiveTreeVisitor._visit_list_from self (visit fuel self) steps original_list
      (length done) (State h trace)
    = Ok VNone (State h (trace ++ flat_map preorder kids)).
Proof.
  intros Hitems rest.
  induction rest as [|element rest IH]; intros done kids trace steps Hsplit Hkids Hvisits Hsteps;
    (destruct steps as [|steps]; [cbn in Hsteps; lia|]);
    cbn [RecursiveTreeVisitor._visit_list_from];
    rewrite bind_unfold; unfold list_item at 1; cbn [heap]; rewrite Hitems.
  - subst items. rewrite lookup_ge_None_2 by (rewrite length_app; cbn; lia).
    cbn in Hkids. symmetry in Hkids. apply fmap_nil_inv in Hkids as ->.
    cbn. by rewrite app_nil_r.
  - assert (Hlookup : items !! length done = Some element)
      by (subst items; by apply list_lookup_middle).
    rewrite Hlookup.
    assert (Hnext : ∀ kids' trace',
      List.filter (λ e, is_instance h e rc) rest = root <$> kids' →
      Forall (visits h rc fuel) kids' →
      RecursiveTreeVisitor._visit_list_from self (visit fuel self) steps original_list
        (S (length done)) (State h trace')
      = Ok VNone (State h (trace' ++ flat_map preorder kids'))).
    { intros kids' trace' Hkids' Hvisits'.
      replace (S (length done)) with (length (done ++ [element]))
        by (rewrite length_app; cbn; lia).
      apply IH; [by rewrite <- app_assoc|done|done|cbn in Hsteps; lia]. }
    rewrite bind_unfold. unfold isinstance at 1. cbn [heap root_class].
    cbn [List.filter] in Hkids.
    destruct (is_instance h element rc).
    + destruct kids as [|k kids]; [discriminate|].
      cbn in Hkids. injection Hkids as Hroot Hkids.
      apply Forall_cons in Hvisits as [Hk Hvisits].
      rewrite bind_unfold, bind_unfold, Hroot, (Hk trace). cbn [mret M_ret ret].
      rewrite (Hnext kids) by done.
      cbn [flat_map]. by rewrite app_assoc.
    + rewrite bind_unfold. cbn [mret M_ret ret]. by apply Hnext.
Qed.

Lemma visitor_visit_list_trace fuel original_list items kids trace :
  list_items h original_list = Some items →
  List.filter (λ e, is_instance h e rc) items = root <$> kids →
  Forall (visits h rc fuel) kids →
  RecursiveTreeVisitor._visit_list self fuel (visit fuel self) original_list (State h trace)
  = Ok VNone (State h (trace ++ flat_map preorder kids)).
Proof.
  intros Hitems Hkids Hvisits. unfold RecursiveTreeVisitor._visit_list.
  rewrite bind_unfold. unfold list_len at 1. cbn [heap]. rewrite Hitems.
  apply (visitor_visit_list_from_trace fuel original_list items Hitems items []);
    [done|done|done|lia].
Qed.

Lemma visitor_children_visit_field_trace fuel node field kids trace :
  from_option (field_children h rc) [] (attr h node field) = root <$> kids →
  Forall (visits h rc fuel) kids →
  RecursiveTreeVisitor.children_visit_field self fuel (visit fuel self) node field
    (State h trace)
  = Ok tt (State h (trace ++ flat_map preorder kids)).
Proof.
  intros Hkids Hvisits. unfold RecursiveTreeVisitor.children_visit_field.
  rewrite bind_unfold. unfold iter_fields_next at 1. cbn [heap].
  destruct (attr h node field) as [value|] eqn:Hattr; cbn [fmap option_fmap option_map].
  - rewrite bind_unfold. unfold getattr at 1. cbn [heap]. rewrite Hattr.
    cbn [from_option id] in *.
    rewrite bind_unfold. unfold isinstance_list at 1. cbn [heap].
    unfold field_children in Hkids.
    destruct (list_items h value) as [items|] eqn:Hitems.
    + rewrite bool_decide_eq_true_2 by eauto.
      rewrite bind_unfold, (visitor_visit_list_trace fuel value items kids) by done.
      reflexivity.
    + rewrite bool_decide_eq_false_2 by (by intros [? ?]).
      rewrite bind_unfold. unfold isinstance at 1. cbn [heap root_class].
      destruct (is_instance h value rc).
      * destruct kids as [|k [|k' kids]]; try discriminate.
        injection Hkids as Hroot. apply Forall_cons in Hvisits as [Hk _].
        rewrite bind_unfold, Hroot, (Hk trace). cbn. by rewrite app_nil_r.
      * symmetry in Hkids. apply fmap_nil_inv in Hkids as ->.
        cbn. by rewrite app_nil_r.
  - cbn [from_option] in Hkids. symmetry in Hkids. apply fmap_nil_inv in Hkids as ->.
    cbn. by rewrite app_nil_r.
Qed.

Lemma visitor_children_visit_fields_trace fuel node fields :
  ∀ kids trace,
    flat_map (λ field, from_option (field_children h rc) [] (attr h node field)) fields
      = root <$> kids →
    Forall (visits h rc fuel) kids →
    RecursiveTreeVisitor.children_visit_fields self fuel (visit fuel self) node fields
      (State h trace)
    = Ok tt (State h (trace ++ flat_map preorder kids)).
Proof.
  induction fields as [|field fields IH]; intros kids trace Hkids Hvisits;
    cbn [RecursiveTreeVisitor.children_visit_fields].
  - cbn in Hkids. symmetry in Hkids. apply fmap_nil_inv in Hkids as ->.
    cbn. by rewrite app_nil_r.
  - cbn [flat_map] in Hkids. symmetry in Hkids.
    apply fmap_app_inv in Hkids as (kids1 & kids2 & Hkids1 & Hkids2 & ->).
    apply Forall_app in Hvisits as [Hvisits1 Hvisits2].
    rewrite bind_unfold,
      (visitor_children_visit_field_trace fuel node field kids1 trace) by done.
    rewrite (IH kids2) by done.
    by rewrite flat_map_app, app_assoc.
Qed.

Lemma visit_tree t :
  shape h rc t → ∀ fuel, (height t ≤ fuel)%nat → visits h rc fuel t.
Proof.
  induction t as [node kids IH] using tree_induction.
  intros Hshape fuel Hfuel trace.
  inversion Hshape as [l cls attrs kids' Hl Hnode Hchildren Hkids]; subst.
  destruct fuel as [|fuel]; [cbn in Hfuel; lia|].
  cbn [root]. rewrite visit_unfold. cbn [heap class_of]. rewrite Hl.
  rewrite getattr_self_default by apply lookup_empty.
  unfold generic_visit_of. cbn [vclass].
  unfold RecursiveTreeVisitor.generic_visit, RecursiveTreeVisitor.children_visit.
  rewrite !bind_unfold. unfold declared_fields at 1, visiting. cbn [heap visited].
  rewrite Hl, bind_unfold.
  rewrite (visitor_children_visit_fields_trace fuel (VRef l) (cls_fields cls) kids).
  - cbn [mret M_ret ret]. by rewrite <- app_assoc.
  - rewrite <- Hchildren. unfold children, attr. by rewrite Hl.
  - rewrite Forall_forall in IH, Hkids. apply Forall_forall. intros k Hk.
    apply IH; [done|by apply Hkids|].
    pose proof (height_kid k kids Hk). cbn [height] in Hfuel. lia.
Qed.

End ReadOnly.


(** ** Reachable nodes *)

Lemma child_children h rc parent v :
  child h rc parent v ↔ v ∈ children h rc parent.
Proof.
  rewrite list_elem_of_In. split.
  - intros [l cls attrs field -> Hl Hfield Hattr Hlist Hnode
           |l cls attrs field sequence items -> Hl Hfield Hattr Hlist Hin Hnode];
      unfold children; rewrite Hl; apply in_flat_map; exists field;
      (split; [by apply list_elem_of_In|]); rewrite Hattr; cbn [from_option];
      unfold field_children; rewrite Hlist.
    + rewrite Hnode. by left.
    + apply filter_In. split; [by apply list_elem_of_In|done].
  - unfold children. destruct parent as [| | | | |l]; try by intros [].
    destruct (h !! l) as [[cls attrs|]|] eqn:Hl; try by intros [].
    intros (field & Hfield & Hin)%in_flat_map. apply list_elem_of_In in Hfield.
    destruct (attrs !! field) as [w|] eqn:Hattr; [|by destruct Hin].
    cbn [from_option] in Hin. unfold field_children in Hin.
    destruct (list_items h w) as [items|] eqn:Hlist.
    + apply filter_In in Hin as [Hin Hnode]. apply list_elem_of_In in Hin.
      by eapply child_element.
    + destruct (is_instance h w rc) eqn:Hnode; [|by destruct Hin].
      destruct Hin as [<-|[]]. by eapply child_single.
Qed.

Lemma root_preorder t : root t ∈ preorder t.
Proof. destruct t. cbn. apply elem_of_cons. by left. Qed.

Lemma preorder_kid k kids v : k ∈ kids → v ∈ preorder k → v ∈ flat_map preorder kids.
Proof.
  rewrite !list_elem_of_In. intros Hk Hv. apply in_flat_map. eauto.
Qed.

Lemma preorder_child_closed h rc t :
  shape h rc t → ∀ v w, v ∈ preorder t → child h rc v w → w ∈ preorder t.
Proof.
  induction t as [node kids IH] using tree_induction.
  intros Hshape v w Hv Hchild.
  inversion Hshape as [l cls attrs kids' Hl Hnode Hchildren Hkids]; subst.
  rewrite Forall_forall in IH, Hkids.
  cbn [preorder] in *. apply elem_of_cons. right.
  apply elem_of_cons in Hv as [->|Hv].
  - apply child_children in Hchild. rewrite Hchildren in Hchild.
    apply list_elem_of_fmap in Hchild as (k & -> & Hk).
    eapply preorder_kid; [exact Hk|apply root_preorder].
  - apply list_elem_of_In, in_flat_map in Hv as (k & Hk & Hv).
    apply list_elem_of_In in Hk, Hv.
    eapply preorder_kid; [exact Hk|]. by eapply (IH k Hk (Hkids k Hk)).
Qed.

Lemma preorder_reachable h rc t :
  shape h rc t → ∀ v, v ∈ preorder t → reachable h rc (root t) v.
Proof.
  induction t as [node kids IH] using tree_induction.
  intros Hshape v Hv.
  inversion Hshape as [l cls attrs kids' Hl Hnode Hchildren Hkids]; subst.
  rewrite Forall_forall in IH, Hkids.
  cbn [preorder root] in *.
  apply elem_of_cons in Hv as [->|Hv]; [apply rtc_refl|].
  apply list_elem_of_In, in_flat_map in Hv as (k & Hk & Hv).
  apply list_elem_of_In in Hk, Hv.
  eapply rtc_l; [|by apply (IH k Hk (Hkids k Hk))].
  apply child_children. rewrite Hchildren. apply list_elem_of_fmap. eauto.
Qed.

Lemma reachable_preorder h rc t v :
  shape h rc t → reachable h rc (root t) v ↔ v ∈ preorder t.
Proof.
  intros Hshape. split; [|by apply preorder_reachable].
  revert v. unfold reachable. apply (rtc_ind_r (λ v, v ∈ preorder t)).
  - apply root_preorder.
  - intros v w _ Hchild Hv. by eapply preorder_child_closed.
Qed.

Lemma preorder_nodes h rc t :
  shape h rc t → Forall (is_node_instance h rc) (preorder t).
Proof.
  induction t as [node kids IH] using tree_induction.
  intros Hshape.
  inversion Hshape as [l cls attrs kids' Hl Hnode Hchildren Hkids]; subst.
  rewrite Forall_forall in IH, Hkids.
  cbn [preorder]. apply Forall_cons. split; [split; eauto|].
  apply Forall_forall. intros v Hv.
  apply list_elem_of_In, in_flat_map in Hv as (k & Hk & Hv).
  apply list_elem_of_In in Hk, Hv.
  pose proof (IH k Hk (Hkids k Hk)) as Hall. rewrite Forall_forall in Hall. by apply Hall.
Qed.

Lemma NoDup_once {A} (l : list A) x :
  NoDup l → x ∈ l → ∃ before after, l = before ++ x :: after ∧ (x ∉ before) ∧ (x ∉ after).
Proof.
  intros Hnodup Hin. apply list_elem_of_split in Hin as (before & after & ->).
  exists before, after. split; [done|].
  apply NoDup_app in Hnodup as (_ & Hdisjoint & Hafter).
  apply NoDup_cons in Hafter as [Hafter _].
  split; [|done]. intros Hbefore. apply (Hdisjoint x Hbefore), elem_of_cons. by left.
Qed.

Lemma nested_shape : shape Demo.nested_heap 10 Demo.nested_tree.
Proof.
  unfold Demo.nested_tree.
  repeat (first [ eapply shape_node; [vm_compute; reflexivity|vm_compute; reflexivity
                                      |vm_compute; reflexivity|]
                | apply Forall_cons; split
                | by apply Forall_nil ]).
Qed.

(** C5. On a tree, the read-only traversal with no method of its own calls
    [visit] on the root and then on the nodes below it, in the order of the
    fields and of the list elements, and leaves the store as it is. The
    values it visits are the nodes reachable from the root, each of them
    once, and every one of them is an instance of the root class: a leaf
    or any other value that is not a node is never given to [visit]. *)
Theorem read_only_traversal_visits_each_node_once h rc t fuel trace :
  shape h rc t →
  NoDup (preorder t) →
  (height t ≤ fuel)%nat →
  visit fuel (Visitor IsRecursiveTreeVisitor rc ∅) (root t) (State h trace)
    = Ok VNone (State h (trace ++ preorder t)) ∧
  (∀ v, reachable h rc (root t) v ↔ v ∈ preorder t) ∧
  (∀ v, reachable h rc (root t) v →
     ∃ before after, preorder t = before ++ v :: after ∧ (v ∉ before) ∧ (v ∉ after)) ∧
  Forall (is_node_instance h rc) (preorder t).
Proof.
  intros Hshape Hnodup Hfuel. split; [by apply visit_tree|].
  split; [intros v; by apply reachable_preorder|].
  split; [|by eapply preorder_nodes].
  intros v Hv. apply NoDup_once; [done|]. by apply (reachable_preorder h rc t v).
Qed.

Lemma read_only_traversal_visits_each_node_once_witness :
  visit 3 (Visitor IsRecursiveTreeVisitor 10 ∅) (VRef 1) (State Demo.nested_heap [])
    = Ok VNone (State Demo.nested_heap [VRef 1; VRef 3; VRef 5; VRef 6; VRef 4]) ∧
  (∀ v, reachable Demo.nested_heap 10 (VRef 1) v ↔
        v ∈ [VRef 1; VRef 3; VRef 5; VRef 6; VRef 4]) ∧
  (∀ v, reachable Demo.nested_heap 10 (VRef 1) v →
     ∃ before after,
       [VRef 1; VRef 3; VRef 5; VRef 6; VRef 4] = before ++ v :: after ∧
       (v ∉ before) ∧ (v ∉ after)) ∧
  Forall (is_node_instance Demo.nested_heap 10) [VRef 1; VRef 3; VRef 5; VRef 6; VRef 4].
Proof.
  apply (read_only_traversal_visits_each_node_once Demo.nested_heap 10
           Demo.nested_tree 3 []).
  - apply nested_shape.
  - cbn. repeat (apply NoDup_cons; split;
      [intros Hin; repeat (apply elem_of_cons in Hin as [Hin|Hin]; [discriminate|]);
       by apply elem_of_nil in Hin|]).
    apply NoDup_nil. done.
  - vm_compute. lia.
Defined.

(** * Further properties of the traversals *)

(** ** Cycles and sharing *)

Lemma list_items_instance h l cls attrs :
  h !! l = Some (Instance cls attrs) → list_items h (VRef l) = None.
Proof. intros Hl. cbn. by rewrite Hl. Qed.

Ltac unfold_primitives :=
  unfold declared_fields, iter_fields_next, getattr, isinstance_list, isinstance,
    list_item, list_len, iterate, record_visit, get_class, attr, visiting in *;
  munfold.

Ltac reduce_with tac :=
  repeat (progress
    (cbn [heap visited vclass root_class methods fmap option_fmap option_map
          from_option id];
     tac)).

Lemma visitor_self_loop h rc l cls attrs field fields :
  h !! l = Some (Instance cls attrs) →
  cls_fields cls = field :: fields →
  attrs !! field = Some (VRef l) →
  is_instance h (VRef l) rc = true →
  ∀ fuel trace,
    visit fuel (Visitor IsRecursiveTreeVisitor rc ∅) (VRef l) (State h trace) = OutOfFuel.
Proof.
  intros Hl Hfields Hfield Hnode fuel.
  pose proof (list_items_instance _ _ _ _ Hl) as Hlist.
  induction fuel as [|fuel IH]; intros trace; [reflexivity|].
  rewrite visit_unfold. cbn [heap class_of]. rewrite Hl.
  rewrite getattr_self_default by apply lookup_empty.
  unfold generic_visit_of, RecursiveTreeVisitor.generic_visit,
    RecursiveTreeVisitor.children_visit.
  cbn [vclass]. unfold_primitives. cbn [heap visited]. rewrite Hl, Hfields.
  cbn [RecursiveTreeVisitor.children_visit_fields].
  unfold RecursiveTreeVisitor.children_visit_field. unfold_primitives.
  reduce_with ltac:(rewrite ?Hl, ?Hfield, ?Hlist, ?Hnode, ?IH).
  rewrite bool_decide_eq_false_2 by (by intros [? ?]).
  reduce_with ltac:(rewrite ?Hl, ?Hfield, ?Hlist, ?Hnode, ?IH).
  reflexivity.
Qed.

Lemma transformer_self_loop h rc l cls attrs field fields :
  h !! l = Some (Instance cls attrs) →
  cls_fields cls = field :: fields →
  attrs !! field = Some (VRef l) →
  is_instance h (VRef l) rc = true →
  ∀ fuel trace,
    visit fuel (Visitor IsRecursiveTreeTransformer rc ∅) (VRef l) (State h trace) = OutOfFuel.
Proof.
  intros Hl Hfields Hfield Hnode fuel.
  pose proof (list_items_instance _ _ _ _ Hl) as Hlist.
  induction fuel as [|fuel IH]; intros trace; [reflexivity|].
  rewrite visit_unfold. cbn [heap class_of]. rewrite Hl.
  rewrite getattr_self_default by apply lookup_empty.
  unfold generic_visit_of, RecursiveTreeTransformer.generic_visit,
    RecursiveTreeTransformer.children_visit.
  cbn [vclass]. unfold_primitives. cbn [heap visited]. rewrite Hl, Hfields.
  cbn [RecursiveTreeTransformer.children_visit_fields].
  unfold RecursiveTreeTransformer.children_visit_field. unfold_primitives.
  reduce_with ltac:(rewrite ?Hl, ?Hfield, ?Hlist, ?Hnode, ?IH).
  rewrite bool_decide_eq_false_2 by (by intros [? ?]).
  reduce_with ltac:(rewrite ?Hl, ?Hfield, ?Hlist, ?Hnode, ?IH).
  reflexivity.
Qed.

(** X1. Neither traversal looks for cycles. When the first declared field of
    a node holds the node itself, the visit of that node, with no method
    registered, does not return at any recursion depth: each visit of the
    node starts another one before doing anything else. *)
Theorem self_loop_never_returns h rc l cls attrs field fields :
  h !! l = Some (Instance cls attrs) →
  cls_fields cls = field :: fields →
  attrs !! field = Some (VRef l) →
  is_instance h (VRef l) rc = true →
  ∀ fuel trace,
    visit fuel (Visitor IsRecursiveTreeVisitor rc ∅) (VRef l) (State h trace) = OutOfFuel ∧
    visit fuel (Visitor IsRecursiveTreeTransformer rc ∅) (VRef l) (State h trace) = OutOfFuel.
Proof.
  intros Hl Hfields Hfield Hnode fuel trace. split.
  - by eapply visitor_self_loop.
  - by eapply transformer_self_loop.
Qed.

Lemma self_loop_never_returns_witness :
  visit 7 Demo.plain_visitor (VRef 1) (State Demo.cyclic_heap []) = OutOfFuel ∧
  visit 7 Demo.plain_transformer (VRef 1) (State Demo.cyclic_heap []) = OutOfFuel.
Proof.
  apply (self_loop_never_returns Demo.cyclic_heap 10 1 Demo.Loop
           (<["next" := VRef 1]> ∅) "next" []).
  - vm_compute. reflexivity.
  - reflexivity.
  - vm_compute. reflexivity.
  - vm_compute. reflexivity.
Defined.

(** X2. The read-only traversal keeps no record of the nodes it has seen.
    On a store with sharing it visits the unfolding of the graph: the log
    is the preorder of any tree whose nodes have, in the store, the roots
    of their kids as children, so a node held by two fields is visited once
    for each. *)
Theorem read_only_traversal_revisits_shared_nodes h rc t fuel trace :
  shape h rc t →
  (height t ≤ fuel)%nat →
  visit fuel (Visitor IsRecursiveTreeVisitor rc ∅) (root t) (State h trace)
    = Ok VNone (State h (trace ++ preorder t)).
Proof. intros Hshape Hfuel. by apply visit_tree. Qed.

Lemma shared_shape : shape Demo.shared_heap 10 Demo.shared_tree.
Proof.
  unfold Demo.shared_tree.
  repeat (first [ eapply shape_node; [vm_compute; reflexivity|vm_compute; reflexivity
                                      |vm_compute; reflexivity|]
                | apply Forall_cons; split
                | by apply Forall_nil ]).
Qed.

Lemma read_only_traversal_revisits_shared_nodes_witness :
  visit 2 (Visitor IsRecursiveTreeVisitor 10 ∅) (VRef 1) (State Demo.shared_heap [])
    = Ok VNone (State Demo.shared_heap [VRef 1; VRef 2; VRef 2]).
Proof.
  apply (read_only_traversal_revisits_shared_nodes Demo.shared_heap 10 Demo.shared_tree 2 []).
  - apply shared_shape.
  - vm_compute. lia.
Defined.

(** ** The read-only traversal writes nothing *)

Lemma heap_pure_ret {A} (a : A) : heap_pure (mret a).
Proof. by intros σ a' σ' [= _ <-]. Qed.

Lemma heap_pure_bind {A B} (m : M A) (f : A → M B) :
  heap_pure m → (∀ a, heap_pure (f a)) → heap_pure (m ≫= f).
Proof.
  intros Hm Hf σ b σ'. rewrite bind_unfold.
  destruct (m σ) as [a σ1| |] eqn:Hrun; [|discriminate..].
  intros Hrun'. rewrite (Hf _ _ _ _ Hrun'). by eapply Hm.
Qed.

Lemma heap_pure_read {A} (m : M A) :
  (∀ σ a σ', m σ = Ok a σ' → σ' = σ) → heap_pure m.
Proof. intros Hread σ a σ' Hrun. by rewrite (Hread _ _ _ Hrun). Qed.

Lemma heap_pure_isinstance v rc : heap_pure (isinstance v rc).
Proof. apply heap_pure_read. by intros σ a σ' [= _ <-]. Qed.

Lemma heap_pure_isinstance_list v : heap_pure (isinstance_list v).
Proof. apply heap_pure_read. by intros σ a σ' [= _ <-]. Qed.

Lemma heap_pure_getattr node field default : heap_pure (getattr node field default).
Proof. apply heap_pure_read. by intros σ a σ' [= _ <-]. Qed.

Lemma heap_pure_iter_fields_next node field : heap_pure (iter_fields_next node field).
Proof. apply heap_pure_read. by intros σ a σ' [= _ <-]. Qed.

Lemma heap_pure_list_item original_list i : heap_pure (list_item original_list i).
Proof.
  apply heap_pure_read. intros σ a σ'. unfold list_item.
  destruct (list_items _ _); [|discriminate]. by intros [= _ <-].
Qed.

Lemma heap_pure_list_len original_list : heap_pure (list_len original_list).
Proof.
  apply heap_pure_read. intros σ a σ'. unfold list_len.
  destruct (list_items _ _); [|discriminate]. by intros [= _ <-].
Qed.

Lemma heap_pure_declared_fields node : heap_pure (declared_fields node).
Proof.
  apply heap_pure_read. intros σ a σ'. unfold declared_fields.
  destruct node; try discriminate.
  destruct (heap σ !! l) as [[]|]; try discriminate. by intros [= _ <-].
Qed.

Ltac heap_pure_step :=
  first
    [ apply heap_pure_ret
    | apply heap_pure_isinstance
    | apply heap_pure_isinstance_list
    | apply heap_pure_getattr
    | apply heap_pure_iter_fields_next
    | apply heap_pure_list_item
    | apply heap_pure_list_len
    | apply heap_pure_declared_fields
    | assumption
    | match goal with
      | H : ∀ v, heap_pure (_ v) |- heap_pure (_ ?v) => apply H
      | |- heap_pure (match ?x with _ => _ end) => destruct x
      | |- heap_pure (_ ≫= _) => apply heap_pure_bind; [|intros ?]
      end ].

Section VisitorPure.
Context (self : visitor) (fuel : nat) (visit : val → M val).
Hypothesis Hvisit : ∀ v, heap_pure (visit v).

Lemma visitor_visit_list_from_pure steps original_list i :
  heap_pure (RecursiveTreeVisitor._visit_list_from self visit steps original_list i).
Proof.
  revert i. induction steps as [|steps IH]; intros i;
    cbn [RecursiveTreeVisitor._visit_list_from]; [by intros σ a σ'|].
  apply heap_pure_bind; [heap_pure_step|]. intros [element|]; [|apply heap_pure_ret].
  apply heap_pure_bind; [heap_pure_step|]. intros is_node.
  apply heap_pure_bind; [repeat heap_pure_step|]. intros ?. apply IH.
Qed.

Lemma visitor_visit_list_pure original_list :
  heap_pure (RecursiveTreeVisitor._visit_list self fuel visit original_list).
Proof.
  unfold RecursiveTreeVisitor._visit_list.
  apply heap_pure_bind; [heap_pure_step|]. intros n. apply visitor_visit_list_from_pure.
Qed.

Lemma visitor_children_visit_field_pure node field :
  heap_pure (RecursiveTreeVisitor.children_visit_field self fuel visit node field).
Proof.
  unfold RecursiveTreeVisitor.children_visit_field.
  apply heap_pure_bind; [heap_pure_step|]. intros [[field' yielded]|]; [|apply heap_pure_ret].
  apply heap_pure_bind; [heap_pure_step|]. intros value.
  apply heap_pure_bind; [heap_pure_step|]. intros [|].
  - apply heap_pure_bind; [apply visitor_visit_list_pure|]. intros ?. apply heap_pure_ret.
  - repeat heap_pure_step.
Qed.

Lemma visitor_children_visit_pure node :
  heap_pure (RecursiveTreeVisitor.children_visit self fuel visit node).
Proof.
  unfold RecursiveTreeVisitor.children_visit.
  apply heap_pure_bind; [heap_pure_step|]. intros fields.
  apply heap_pure_bind; [|intros ?; apply heap_pure_ret].
  induction fields as [|field fields IH]; cbn [RecursiveTreeVisitor.children_visit_fields].
  - apply heap_pure_ret.
  - apply heap_pure_bind; [apply visitor_children_visit_field_pure|]. intros ?. apply IH.
Qed.

End VisitorPure.

Lemma visitor_visit_pure rc (ms : gmap string handler) :
  map_Forall (λ _ m, pure_handler m) ms →
  ∀ fuel node, heap_pure (visit fuel (Visitor IsRecursiveTreeVisitor rc ms) node).
Proof.
  intros Hms fuel. induction fuel as [|fuel IH]; intros node σ r σ'; [discriminate|].
  rewrite visit_unfold. destruct (class_of (heap σ) node) as [cls|]; [|discriminate].
  assert (Hchildren : ∀ v, heap_pure
            (children_visit_of (Visitor IsRecursiveTreeVisitor rc ms) fuel
               (visit fuel (Visitor IsRecursiveTreeVisitor rc ms)) v)).
  { intros v. unfold children_visit_of. cbn [vclass].
    by apply visitor_children_visit_pure. }
  destruct (ms !! ("visit_" +:+ cls_name cls)) as [m|] eqn:Hm.
  - rewrite (getattr_self_defined _ _ _ _ m) by exact Hm.
    intros Hrun.
    exact (Hms _ _ Hm
             (bound_methods (Visitor IsRecursiveTreeVisitor rc ms) fuel
                (visit fuel (Visitor IsRecursiveTreeVisitor rc ms)))
             IH Hchildren node _ _ _ Hrun).
  - rewrite getattr_self_default by exact Hm.
    unfold generic_visit_of, RecursiveTreeVisitor.generic_visit. cbn [vclass].
    intros Hrun.
    assert (Hpure : heap_pure
              (_ ← RecursiveTreeVisitor.children_visit (Visitor IsRecursiveTreeVisitor rc ms)
                     fuel (visit fuel (Visitor IsRecursiveTreeVisitor rc ms)) node;
               mret VNone)).
    { apply heap_pure_bind; [by apply visitor_children_visit_pure|].
      intros ?. apply heap_pure_ret. }
    exact (Hpure _ _ _ Hrun).
Qed.

Lemma pure_handler_give result : pure_handler (Demo.give result).
Proof. intros this _ _ v. apply heap_pure_ret. Qed.

Lemma pure_handler_recurse_and_keep : pure_handler Demo.recurse_and_keep.
Proof.
  intros this _ Hchildren v. unfold Demo.recurse_and_keep.
  apply heap_pure_bind; [apply Hchildren|]. intros ?. apply heap_pure_ret.
Qed.

(** X3. The read-only traversal never writes to the store. Whatever the
    store holds, tree or not, a visit that returns leaves every object as
    it was, provided the methods of the visitor change the store only
    through [self.visit] and [self.children_visit]. *)
Theorem read_only_traversal_keeps_store rc (ms : gmap string handler) fuel node σ r σ' :
  map_Forall (λ _ m, pure_handler m) ms →
  visit fuel (Visitor IsRecursiveTreeVisitor rc ms) node σ = Ok r σ' →
  heap σ' = heap σ.
Proof. intros Hms Hrun. by eapply visitor_visit_pure. Qed.

Lemma read_only_traversal_keeps_store_witness :
  visit 4 Demo.counting (VRef 1) (State Demo.nested_heap [])
    = Ok VNone (State Demo.nested_heap [VRef 1; VRef 3; VRef 5; VRef 6; VRef 4]) ∧
  heap (State Demo.nested_heap [VRef 1; VRef 3; VRef 5; VRef 6; VRef 4])
    = heap (State Demo.nested_heap []).
Proof.
  split; [vm_compute; reflexivity|].
  apply (read_only_traversal_keeps_store 10 (methods Demo.counting) 4 (VRef 1)
           (State Demo.nested_heap []) VNone).
  - unfold Demo.counting. cbn [methods].
    repeat apply map_Forall_insert_2; [..|apply map_Forall_empty].
    + apply pure_handler_recurse_and_keep.
    + apply pure_handler_give.
  - vm_compute. reflexivity.
Defined.

(** ** The read-only traversal drops what the visits return *)

Lemma bind_ext {A B} (m : M A) (f g : A → M B) σ :
  (∀ a σ', f a σ' = g a σ') → (m ≫= f) σ = (m ≫= g) σ.
Proof. intros Hfg. rewrite !bind_unfold. destruct (m σ); [apply Hfg|done..]. Qed.

Lemma bind_discard {A B} (m1 m2 : M A) (k : M B) σ :
  effect (m1 σ) = effect (m2 σ) → (_ ← m1; k) σ = (_ ← m2; k) σ.
Proof.
  rewrite !bind_unfold. destruct (m1 σ), (m2 σ); cbn; intros H; by simplify_eq.
Qed.

Section VisitorDiscards.
Context (self : visitor) (fuel : nat) (visit1 visit2 : val → M val).
Hypothesis Hvisit : ∀ v σ, effect (visit1 v σ) = effect (visit2 v σ).

Lemma visitor_visit_list_from_discards steps original_list i σ :
  RecursiveTreeVisitor._visit_list_from self visit1 steps original_list i σ =
  RecursiveTreeVisitor._visit_list_from self visit2 steps original_list i σ.
Proof.
  revert i σ. induction steps as [|steps IH]; intros i σ;
    cbn [RecursiveTreeVisitor._visit_list_from]; [reflexivity|].
  apply bind_ext. intros [element|] σ1; [|reflexivity].
  apply bind_ext. intros is_node σ2.
  assert (Hturn :
    (if is_node then _ ← visit1 element; mret () else mret ()) σ2 =
    ((if is_node then _ ← visit2 element; mret () else mret ()) : M ()) σ2).
  { destruct is_node; [|reflexivity]. apply bind_discard, Hvisit. }
  rewrite !bind_unfold, Hturn.
  destruct ((if is_node then _ ← visit2 element; mret () else mret ()) σ2);
    [apply IH|done..].
Qed.

Lemma visitor_children_visit_field_discards node field σ :
  RecursiveTreeVisitor.children_visit_field self fuel visit1 node field σ =
  RecursiveTreeVisitor.children_visit_field self fuel visit2 node field σ.
Proof.
  unfold RecursiveTreeVisitor.children_visit_field.
  apply bind_ext. intros [[field' yielded]|] σ1; [|reflexivity].
  apply bind_ext. intros value σ2.
  apply bind_ext. intros [|] σ3.
  - unfold RecursiveTreeVisitor._visit_list.
    rewrite !bind_unfold. destruct (list_len value σ3); [|done..].
    by rewrite visitor_visit_list_from_discards.
  - apply bind_ext. intros [|] σ4; [|reflexivity].
    apply bind_discard, Hvisit.
Qed.

Lemma visitor_children_visit_discards node σ :
  RecursiveTreeVisitor.children_visit self fuel visit1 node σ =
  RecursiveTreeVisitor.children_visit self fuel visit2 node σ.
Proof.
  unfold RecursiveTreeVisitor.children_visit.
  apply bind_ext. intros fields σ1. rewrite !bind_unfold.
  assert (Hfields : ∀ σ,
    RecursiveTreeVisitor.children_visit_fields self fuel visit1 node fields σ =
    RecursiveTreeVisitor.children_visit_fields self fuel visit2 node fields σ).
  { induction fields as [|field fields IH]; intros σ2;
      cbn [RecursiveTreeVisitor.children_visit_fields]; [reflexivity|].
    rewrite !bind_unfold, visitor_children_visit_field_discards.
    destruct (RecursiveTreeVisitor.children_visit_field _ _ _ _ _ _); [apply IH|done..]. }
  by rewrite Hfields.
Qed.

End VisitorDiscards.

Lemma give_same_effect result1 result2 v σ :
  effect (visit 1 (register "Leaf" (Demo.give result1) Demo.plain_visitor) v σ) =
  effect (visit 1 (register "Leaf" (Demo.give result2) Demo.plain_visitor) v σ).
Proof.
  rewrite !visit_unfold. destruct (class_of (heap σ) v) as [cls|]; [|reflexivity].
  destruct (decide (cls_name cls = "Leaf")) as [Hleaf|Hother].
  - rewrite (getattr_self_defined _ _ _ _ (Demo.give result1))
      by (cbn [register methods]; rewrite Hleaf; apply lookup_insert_eq).
    rewrite (getattr_self_defined _ _ _ _ (Demo.give result2))
      by (cbn [register methods]; rewrite Hleaf; apply lookup_insert_eq).
    reflexivity.
  - assert (Hne : "visit_" +:+ "Leaf" ≠ "visit_" +:+ cls_name cls)
      by (intros Heq; by apply visit_method_name_inj in Heq).
    rewrite !getattr_self_default
      by (cbn [register methods]; rewrite lookup_insert_ne by exact Hne; apply lookup_empty).
    reflexivity.
Qed.

(** X4. The read-only traversal makes no use of what a visit returns:
    [children_visit] does the same, and leaves the same store and log,
    with any two [visit]s that differ only in the values they return. A
    method of a read-only visitor that returns [None] deletes nothing. *)
Theorem read_only_traversal_ignores_results self fuel visit1 visit2 node σ :
  (∀ v σ, effect (visit1 v σ) = effect (visit2 v σ)) →
  RecursiveTreeVisitor.children_visit self fuel visit1 node σ =
  RecursiveTreeVisitor.children_visit self fuel visit2 node σ.
Proof. intros Hvisit. by apply visitor_children_visit_discards. Qed.

Lemma read_only_traversal_ignores_results_witness :
  RecursiveTreeVisitor.children_visit Demo.plain_visitor 1
    (visit 1 (register "Leaf" (Demo.give (VInt 1)) Demo.plain_visitor)) (VRef 1)
    (State Demo.binop_heap []) =
  RecursiveTreeVisitor.children_visit Demo.plain_visitor 1
    (visit 1 (register "Leaf" (Demo.give VNone) Demo.plain_visitor)) (VRef 1)
    (State Demo.binop_heap []).
Proof.
  apply (read_only_traversal_ignores_results Demo.plain_visitor 1
           (visit 1 (register "Leaf" (Demo.give (VInt 1)) Demo.plain_visitor))
           (visit 1 (register "Leaf" (Demo.give VNone) Demo.plain_visitor))).
  intros v σ. apply give_same_effect.
Defined.

(** ** A single child: replacement, and a field that is already gone *)

Lemma set_heap_same σ : set_heap (heap σ) σ = σ.
Proof. by destruct σ. Qed.

Lemma children_visit_field_replace self fuel visit l cls attrs field child σ r σ1 attrs1 :
  heap σ !! l = Some (Instance cls attrs) →
  attrs !! field = Some child →
  list_items (heap σ) child = None →
  is_instance (heap σ) child (root_class self) = true →
  visit child σ = Ok r σ1 →
  r ≠ VNone →
  r ≠ VSentinel →
  heap σ1 !! l = Some (Instance cls attrs1) →
  RecursiveTreeTransformer.children_visit_field self fuel visit (VRef l) field σ =
  Ok tt (set_heap (<[l := Instance cls (<[field := r]> attrs1)]> (heap σ1)) σ1).
Proof.
  intros Hl Hfield Hlist Hnode Hvisit Hnone Hsentinel Hl1.
  unfold RecursiveTreeTransformer.children_visit_field, iter_fields_next, attr,
    isinstance_list, isinstance.
  munfold. rewrite Hl, Hfield. cbn [fmap option_fmap option_map].
  rewrite Hlist. rewrite bool_decide_eq_false_2 by (by intros [? ?]).
  rewrite Hnode, Hvisit.
  destruct r; try congruence; unfold setattr; by rewrite Hl1.
Qed.

(** X5. For a single child the mutating traversal stores whatever the visit
    returns, other than [None] and the sentinel, in the field: a sequence
    is stored as it is and is not spliced. When the visit returns what the
    field already holds, the original node for instance, the store is left
    exactly as the visit left it. *)
Theorem single_child_is_replaced_by_result
    self fuel visit l cls attrs field child σ r σ1 attrs1 :
  heap σ !! l = Some (Instance cls attrs) →
  attrs !! field = Some child →
  list_items (heap σ) child = None →
  is_instance (heap σ) child (root_class self) = true →
  visit child σ = Ok r σ1 →
  r ≠ VNone →
  r ≠ VSentinel →
  heap σ1 !! l = Some (Instance cls attrs1) →
  RecursiveTreeTransformer.children_visit_field self fuel visit (VRef l) field σ =
    Ok tt (set_heap (<[l := Instance cls (<[field := r]> attrs1)]> (heap σ1)) σ1) ∧
  (attrs1 !! field = Some r →
   RecursiveTreeTransformer.children_visit_field self fuel visit (VRef l) field σ = Ok tt σ1).
Proof.
  intros Hl Hfield Hlist Hnode Hvisit Hnone Hsentinel Hl1.
  rewrite (children_visit_field_replace self fuel visit l cls attrs field child σ r σ1 attrs1)
    by done.
  split; [reflexivity|]. intros Hsame.
  by rewrite (insert_id attrs1), (insert_id (heap σ1)), set_heap_same.
Qed.

Lemma single_child_is_replaced_by_result_witness :
  RecursiveTreeTransformer.children_visit_field (Demo.on_leaf (VTuple [VRef 2; VRef 3])) 1
    (visit 1 (Demo.on_leaf (VTuple [VRef 2; VRef 3]))) (VRef 1) "left"
    (State Demo.binop_heap [])
  = Ok tt
      (set_heap
         (<[1 := Instance Demo.BinOp
                   (<["left" := VTuple [VRef 2; VRef 3]]>
                      (<["left" := VRef 2]> (<["right" := VRef 3]> ∅)))]>
            Demo.binop_heap)
         (State Demo.binop_heap [VRef 2])) ∧
  RecursiveTreeTransformer.children_visit_field (Demo.on_leaf (VRef 2)) 1
    (visit 1 (Demo.on_leaf (VRef 2))) (VRef 1) "left" (State Demo.binop_heap [])
  = Ok tt (State Demo.binop_heap [VRef 2]).
Proof.
  split.
  - apply (single_child_is_replaced_by_result (Demo.on_leaf (VTuple [VRef 2; VRef 3])) 1
             (visit 1 (Demo.on_leaf (VTuple [VRef 2; VRef 3]))) 1 Demo.BinOp
             (<["left" := VRef 2]> (<["right" := VRef 3]> ∅)) "left" (VRef 2)
             (State Demo.binop_heap []) (VTuple [VRef 2; VRef 3])
             (State Demo.binop_heap [VRef 2])
             (<["left" := VRef 2]> (<["right" := VRef 3]> ∅)));
      first [discriminate | vm_compute; reflexivity].
  - apply (single_child_is_replaced_by_result (Demo.on_leaf (VRef 2)) 1
             (visit 1 (Demo.on_leaf (VRef 2))) 1 Demo.BinOp
             (<["left" := VRef 2]> (<["right" := VRef 3]> ∅)) "left" (VRef 2)
             (State Demo.binop_heap []) (VRef 2)
             (State Demo.binop_heap [VRef 2])
             (<["left" := VRef 2]> (<["right" := VRef 3]> ∅)));
      first [discriminate | vm_compute; reflexivity].
Defined.

(** X6. When the visit of a single child returns [None] and the field is
    no longer there, because the visit itself removed it, [delattr] fails
    and [children_visit] raises [AttributeError]: the delete outcome is
    not accepted for a field that is already absent. *)
Theorem single_child_deleted_twice_raises
    self fuel visit l cls attrs field child σ σ1 attrs1 :
  heap σ !! l = Some (Instance cls attrs) →
  attrs !! field = Some child →
  list_items (heap σ) child = None →
  is_instance (heap σ) child (root_class self) = true →
  visit child σ = Ok VNone σ1 →
  heap σ1 !! l = Some (Instance cls attrs1) →
  attrs1 !! field = None →
  RecursiveTreeTransformer.children_visit_field self fuel visit (VRef l) field σ
    = Raise AttributeError ∧
  RecursiveTreeTransformer.children_visit_fields self fuel visit (VRef l) [field] σ
    = Raise AttributeError.
Proof.
  intros Hl Hfield Hlist Hnode Hvisit Hl1 Hgone.
  assert (Hraise :
    RecursiveTreeTransformer.children_visit_field self fuel visit (VRef l) field σ
      = Raise AttributeError).
  { unfold RecursiveTreeTransformer.children_visit_field, iter_fields_next, attr,
      isinstance_list, isinstance.
    munfold. rewrite Hl, Hfield. cbn [fmap option_fmap option_map].
    rewrite Hlist. rewrite bool_decide_eq_false_2 by (by intros [? ?]).
    rewrite Hnode, Hvisit. unfold delattr. by rewrite Hl1, Hgone. }
  split; [exact Hraise|].
  cbn [RecursiveTreeTransformer.children_visit_fields]. by rewrite bind_unfold, Hraise.
Qed.

Lemma single_child_deleted_twice_raises_witness :
  let self := Visitor IsRecursiveTreeTransformer 10 (<["visit_Leaf" := Demo.detach]> ∅) in
  RecursiveTreeTransformer.children_visit_field self 1 (visit 1 self) (VRef 1) "left"
    (State Demo.binop_heap []) = Raise AttributeError ∧
  RecursiveTreeTransformer.children_visit_fields self 1 (visit 1 self) (VRef 1) ["left"]
    (State Demo.binop_heap []) = Raise AttributeError.
Proof.
  cbv zeta.
  apply (single_child_deleted_twice_raises
           (Visitor IsRecursiveTreeTransformer 10 (<["visit_Leaf" := Demo.detach]> ∅)) 1
           (visit 1 (Visitor IsRecursiveTreeTransformer 10 (<["visit_Leaf" := Demo.detach]> ∅)))
           1 Demo.BinOp (<["left" := VRef 2]> (<["right" := VRef 3]> ∅)) "left" (VRef 2)
           (State Demo.binop_heap [])
           (State (<[1 := Instance Demo.BinOp (<["right" := VRef 3]> ∅)]> Demo.binop_heap)
              [VRef 2])
           (<["right" := VRef 3]> ∅)).
  - vm_compute. reflexivity.
  - vm_compute. reflexivity.
  - vm_compute. reflexivity.
  - vm_compute. reflexivity.
  - vm_compute. reflexivity.
  - vm_compute. reflexivity.
  - vm_compute. reflexivity.
Defined.

(** ** The mutating traversal with visits that keep their node *)

Section TransformerKeeps.
Context (h : gmap loc obj) (self : visitor) (fuel : nat) (visit : val → M val).

Lemma kept_body element k new_list trace :
  is_instance h element (root_class self) = true →
  element = root k →
  kept h visit k →
  RecursiveTreeTransformer._visit_list_body self visit element new_list (State h trace)
  = Ok (new_list ++ [element]) (State h (trace ++ preorder k)).
Proof.
  intros Hnode -> [(l & cls & attrs & Hroot & Hl) Hvisit].
  rewrite visit_list_body_cases. cbn [heap]. rewrite Hnode, Hvisit. cbn [heap].
  rewrite Hroot. unfold edit_outcome_of, elements.
  by rewrite (list_items_instance _ _ _ _ Hl).
Qed.

Lemma transformer_visit_list_from_kept original_list items :
  list_items h original_list = Some items →
  ∀ rest done kids new_list trace steps,
    items = done ++ rest →
    List.filter (λ e, is_instance h e (root_class self)) rest = root <$> kids →
    Forall (kept h visit) kids →
    length rest < steps →
    RecursiveTreeTransformer._visit_list_from self visit steps original_list
      (length done) new_list (State h trace)
    = Ok (new_list ++ rest) (State h (trace ++ flat_map preorder kids)).
Proof.
  intros Hitems rest.
  induction rest as [|element rest IH];
    intros done kids new_list trace steps Hsplit Hkids Hkept Hsteps;
    (destruct steps as [|steps]; [cbn in Hsteps; lia|]);
    cbn [RecursiveTreeTransformer._visit_list_from];
    rewrite bind_unfold; unfold list_item at 1; cbn [heap]; rewrite Hitems.
  - subst items. rewrite lookup_ge_None_2 by (rewrite length_app; cbn; lia).
    cbn in Hkids. symmetry in Hkids. apply fmap_nil_inv in Hkids as ->.
    cbn. by rewrite !app_nil_r.
  - assert (Hlookup : items !! length done = Some element)
      by (subst items; by apply list_lookup_middle).
    rewrite Hlookup, bind_unfold.
    assert (Hnext : ∀ kids' trace',
      List.filter (λ e, is_instance h e (root_class self)) rest = root <$> kids' →
      Forall (kept h visit) kids' →
      RecursiveTreeTransformer._visit_list_from self visit steps original_list
        (S (length done)) (new_list ++ [element]) (State h trace')
      = Ok (new_list ++ element :: rest) (State h (trace' ++ flat_map preorder kids'))).
    { intros kids' trace' Hkids' Hkept'.
      replace (S (length done)) with (length (done ++ [element]))
        by (rewrite length_app; cbn; lia).
      rewrite (IH (done ++ [element]) kids' (new_list ++ [element]) trace' steps);
        [|by rewrite <- app_assoc|done|done|cbn in Hsteps; lia].
      by rewrite <- app_assoc. }
    cbn [List.filter] in Hkids.
    destruct (is_instance h element (root_class self)) eqn:Hnode.
    + destruct kids as [|k kids]; [discriminate|].
      cbn in Hkids. injection Hkids as Hroot Hkids.
      apply Forall_cons in Hkept as [Hk Hkept].
      rewrite (kept_body element k) by done.
      rewrite (Hnext kids) by done.
      cbn [flat_map]. by rewrite app_assoc.
    + rewrite visit_list_body_cases. cbn [heap]. rewrite Hnode. by apply Hnext.
Qed.

Lemma transformer_visit_list_kept original_list items kids trace :
  list_items h original_list = Some items →
  List.filter (λ e, is_instance h e (root_class self)) items = root <$> kids →
  Forall (kept h visit) kids →
  RecursiveTreeTransformer._visit_list self fuel visit original_list (State h trace)
  = Ok VNone (State h (trace ++ flat_map preorder kids)).
Proof.
  intros Hitems Hkids Hkept. unfold RecursiveTreeTransformer._visit_list.
  rewrite bind_unfold. unfold list_len at 1. cbn [heap]. rewrite Hitems.
  rewrite bind_unfold.
  rewrite (transformer_visit_list_from_kept original_list items Hitems items [] kids []);
    [|done|done|done|lia].
  rewrite bind_unfold. unfold set_slice at 1. cbn [heap app].
  destruct original_list as [| | | | |l]; try discriminate.
  cbn in Hitems. destruct (h !! l) as [[|items']|] eqn:Hl; try discriminate.
  injection Hitems as ->.
  cbn. unfold set_heap. cbn [visited]. by rewrite insert_id.
Qed.

Lemma transformer_children_visit_field_kept l cls attrs field kids trace :
  h !! l = Some (Instance cls attrs) →
  from_option (field_children h (root_class self)) [] (attrs !! field) = root <$> kids →
  Forall (kept h visit) kids →
  RecursiveTreeTransformer.children_visit_field self fuel visit (VRef l) field (State h trace)
  = Ok tt (State h (trace ++ flat_map preorder kids)).
Proof.
  intros Hl Hkids Hkept. unfold RecursiveTreeTransformer.children_visit_field.
  rewrite bind_unfold. unfold iter_fields_next at 1, attr. cbn [heap]. rewrite Hl.
  destruct (attrs !! field) as [old_value|] eqn:Hattr; cbn [fmap option_fmap option_map].
  - cbn [from_option] in Hkids.
    rewrite bind_unfold. unfold isinstance_list at 1. cbn [heap].
    unfold field_children in Hkids.
    destruct (list_items h old_value) as [items|] eqn:Hitems.
    + rewrite bool_decide_eq_true_2 by eauto.
      rewrite bind_unfold, (transformer_visit_list_kept old_value items kids) by done.
      reflexivity.
    + rewrite bool_decide_eq_false_2 by (by intros [? ?]).
      rewrite bind_unfold. unfold isinstance at 1. cbn [heap].
      destruct (is_instance h old_value (root_class self)).
      * destruct kids as [|k [|k' kids]]; try discriminate.
        injection Hkids as Hroot. apply Forall_cons in Hkept as [[Hinst Hk] _].
        destruct Hinst as (l' & cls' & attrs' & Hroot' & Hl').
        rewrite bind_unfold, Hroot, (Hk trace), Hroot'.
        rewrite bind_unfold. cbn [mret M_ret ret].
        unfold setattr. cbn [heap]. rewrite Hl. unfold set_heap. cbn [visited flat_map].
        rewrite <- Hroot', <- Hroot.
        by rewrite (insert_id attrs), (insert_id h), app_nil_r.
      * symmetry in Hkids. apply fmap_nil_inv in Hkids as ->.
        cbn. by rewrite app_nil_r.
  - cbn [from_option] in Hkids. symmetry in Hkids. apply fmap_nil_inv in Hkids as ->.
    cbn. by rewrite app_nil_r.
Qed.

Lemma transformer_children_visit_fields_kept l cls attrs fields :
  h !! l = Some (Instance cls attrs) →
  ∀ kids trace,
    flat_map (λ field, from_option (field_children h (root_class self)) [] (attrs !! field))
      fields = root <$> kids →
    Forall (kept h visit) kids →
    RecursiveTreeTransformer.children_visit_fields self fuel visit (VRef l) fields
      (State h trace)
    = Ok tt (State h (trace ++ flat_map preorder kids)).
Proof.
  intros Hl.
  induction fields as [|field fields IH]; intros kids trace Hkids Hkept;
    cbn [RecursiveTreeTransformer.children_visit_fields].
  - cbn in Hkids. symmetry in Hkids. apply fmap_nil_inv in Hkids as ->.
    cbn. by rewrite app_nil_r.
  - cbn [flat_map] in Hkids. symmetry in Hkids.
    apply fmap_app_inv in Hkids as (kids1 & kids2 & Hkids1 & Hkids2 & ->).
    apply Forall_app in Hkept as [Hkept1 Hkept2].
    rewrite bind_unfold,
      (transformer_children_visit_field_kept l cls attrs field kids1 trace) by done.
    rewrite (IH kids2) by done.
    by rewrite flat_map_app, app_assoc.
Qed.

Lemma transformer_children_visit_kept l cls attrs kids trace :
  h !! l = Some (Instance cls attrs) →
  children h (root_class self) (VRef l) = root <$> kids →
  Forall (kept h visit) kids →
  RecursiveTreeTransformer.children_visit self fuel visit (VRef l) (State h trace)
  = Ok VNone (State h (trace ++ flat_map preorder kids)).
Proof.
  intros Hl Hchildren Hkept. unfold RecursiveTreeTransformer.children_visit.
  rewrite bind_unfold. unfold declared_fields at 1. cbn [heap]. rewrite Hl.
  rewrite bind_unfold.
  rewrite (transformer_children_visit_fields_kept l cls attrs (cls_fields cls) Hl kids);
    [reflexivity| |done].
  rewrite <- Hchildren. unfold children. by rewrite Hl.
Qed.

End TransformerKeeps.

(** X7. [children_visit] of the mutating traversal on a node without child
    nodes, whose fields hold leaves, absent values or lists of values that
    are not nodes, visits nothing and leaves the store and the log as they
    are: each list is rebuilt to the contents it had. *)
Theorem transformer_children_visit_without_children self fuel visit l cls attrs σ :
  heap σ !! l = Some (Instance cls attrs) →
  children (heap σ) (root_class self) (VRef l) = [] →
  RecursiveTreeTransformer.children_visit self fuel visit (VRef l) σ = Ok VNone σ.
Proof.
  intros Hl Hchildren. destruct σ as [h trace]. cbn [heap] in *.
  rewrite (transformer_children_visit_kept h self fuel visit l cls attrs [] trace);
    [|done|done|by apply Forall_nil].
  cbn. by rewrite app_nil_r.
Qed.

Lemma transformer_children_visit_without_children_witness :
  RecursiveTreeTransformer.children_visit Demo.plain_transformer 0
    (visit 0 Demo.plain_transformer) (VRef 1)
    (State (<[1 := Instance Demo.Block (<["body" := VRef 2]> ∅)]>
              (<[2 := PyList [VInt 1; VStr "s"; VNone; VTuple [VRef 1]]]> ∅)) [])
  = Ok VNone
      (State (<[1 := Instance Demo.Block (<["body" := VRef 2]> ∅)]>
                (<[2 := PyList [VInt 1; VStr "s"; VNone; VTuple [VRef 1]]]> ∅)) []).
Proof.
  apply (transformer_children_visit_without_children Demo.plain_transformer 0
           (visit 0 Demo.plain_transformer) 1 Demo.Block (<["body" := VRef 2]> ∅)).
  - vm_compute. reflexivity.
  - vm_compute. reflexivity.
Defined.

Lemma handled_kids h ms m node kids :
  handled h ms m (Tree node kids) → Forall (handled h ms m) kids.
Proof.
  intros [_ Hkids]. induction kids as [|k kids IH]; [by apply Forall_nil|].
  destruct Hkids as [Hk Hkids]. apply Forall_cons. split; [exact Hk|by apply IH].
Qed.

Lemma transformer_keeps_tree h rc (ms : gmap string handler) t :
  shape h rc t →
  handled h ms Demo.recurse_and_keep t →
  ∀ fuel, (height t ≤ fuel)%nat →
    kept h (visit fuel (Visitor IsRecursiveTreeTransformer rc ms)) t.
Proof.
  induction t as [node kids IH] using tree_induction.
  intros Hshape Hhandled fuel Hfuel.
  inversion Hshape as [l cls attrs kids' Hl Hnode Hchildren Hkids]; subst.
  split; [cbn [root]; eauto|]. intros trace.
  destruct fuel as [|fuel]; [cbn in Hfuel; lia|].
  pose proof (handled_kids _ _ _ _ _ Hhandled) as Hhandled_kids.
  destruct Hhandled as [(cls' & Hcls & Hmethod) _].
  cbn [root]. rewrite visit_unfold. cbn [heap]. rewrite Hcls.
  rewrite (getattr_self_defined _ _ _ _ Demo.recurse_and_keep) by exact Hmethod.
  unfold Demo.recurse_and_keep, bound_methods, children_visit_of, visiting.
  cbn [self_children_visit vclass heap visited].
  rewrite bind_unfold.
  rewrite (transformer_children_visit_kept h _ fuel _ l cls attrs kids); [| done | done |].
  - cbn [mret M_ret ret preorder]. by rewrite <- app_assoc.
  - rewrite Forall_forall in IH, Hkids, Hhandled_kids. apply Forall_forall. intros k Hk.
    apply IH; [done|by apply Hkids|by apply Hhandled_kids|].
    pose proof (height_kid k kids Hk). cbn [height] in Hfuel. lia.
Qed.

(** X8. A mutating traversal whose methods edit the children of their node
    and return the node is the identity on a tree: the visit of the root
    returns the root, every node is visited in preorder, and the store is
    afterwards what it was before, each single child being set to itself
    and each list rebuilt to its own contents. *)
Theorem keeping_transformer_is_identity h rc (ms : gmap string handler) t fuel trace :
  shape h rc t →
  handled h ms Demo.recurse_and_keep t →
  (height t ≤ fuel)%nat →
  visit fuel (Visitor IsRecursiveTreeTransformer rc ms) (root t) (State h trace)
    = Ok (root t) (State h (trace ++ preorder t)).
Proof.
  intros Hshape Hhandled Hfuel.
  by apply (transformer_keeps_tree h rc ms t Hshape Hhandled fuel Hfuel).
Qed.

Lemma keeping_transformer_is_identity_witness :
  visit 3 Demo.keeping (VRef 1) (State Demo.nested_heap [])
    = Ok (VRef 1) (State Demo.nested_heap [VRef 1; VRef 3; VRef 5; VRef 6; VRef 4]).
Proof.
  apply (keeping_transformer_is_identity Demo.nested_heap 10 (methods Demo.keeping)
           Demo.nested_tree 3 []).
  - apply nested_shape.
  - cbn [handled Demo.nested_tree foldr].
    repeat split; try (eexists; split; [vm_compute; reflexivity|vm_compute; reflexivity]).
  - vm_compute. lia.
Defined.
